(** * pflow runtime: a shallow embedding of [pflow/runtime.py]

    The [Runtime] class keeps three dictionaries (component registry, graphs,
    executors) and forwards graph edits to [core.Graph] objects.  Python
    objects with identity (graphs, executors) live in a store and the
    dictionaries hold references to them; exceptions leave the store as it
    was at the moment of the [raise]. *)

From Stdlib Require Import Ascii.
From stdpp Require Import gmap strings list fin_maps.

Open Scope string_scope.
Open Scope list_scope.

(** ** Python values, types and exceptions *)

(** The type objects that occur as keys of [Runtime._type_map], and any other
    class, named by its qualified name. *)
Inductive pytype :=
  | py_str | py_unicode | py_bool | py_int | py_float | py_complex
  | py_dict | py_list | py_tuple | py_set | py_frozenset
  | py_class (qualname : string).

#[global] Instance pytype_eq_dec : EqDecision pytype.
Proof. solve_decision. Defined.

Definition pytype_code (t : pytype) : nat + string :=
  match t with
  | py_str => inl 0 | py_unicode => inl 1 | py_bool => inl 2
  | py_int => inl 3 | py_float => inl 4 | py_complex => inl 5
  | py_dict => inl 6 | py_list => inl 7 | py_tuple => inl 8
  | py_set => inl 9 | py_frozenset => inl 10
  | py_class q => inr q
  end.

Definition pytype_decode (c : nat + string) : option pytype :=
  match c with
  | inl 0 => Some py_str | inl 1 => Some py_unicode | inl 2 => Some py_bool
  | inl 3 => Some py_int | inl 4 => Some py_float | inl 5 => Some py_complex
  | inl 6 => Some py_dict | inl 7 => Some py_list | inl 8 => Some py_tuple
  | inl 9 => Some py_set | inl 10 => Some py_frozenset
  | inl _ => None
  | inr q => Some (py_class q)
  end.

#[global] Instance pytype_countable : Countable pytype.
Proof.
  apply (inj_countable pytype_code pytype_decode).
  intros []; reflexivity.
Defined.

(** Literal values (port defaults, initial packets). *)
Inductive pyvalue :=
  | PyNone
  | PyBool (b : bool)
  | PyInt (z : Z)
  | PyStr (s : string).

#[global] Instance pyvalue_eq_dec : EqDecision pyvalue.
Proof. solve_decision. Defined.

(** Exceptions.  [ValueError], [KeyError] and [AttributeError] are the
    built-in ones the runtime raises itself or through a dictionary or
    attribute access; the last four are the error kinds of the core. *)
Inductive exn :=
  | ValueError (msg : string)
  | KeyError (key : string)
  | AttributeError (msg : string)
  | DuplicateNameError (name : string)
  | LookupError (msg : string)
  | ConflictError (msg : string)
  | StateError (msg : string).

#[global] Instance exn_eq_dec : EqDecision exn.
Proof. solve_decision. Defined.

Inductive result (A : Type) :=
  | Ok (a : A)
  | Raise (e : exn).
Arguments Ok {A} a.
Arguments Raise {A} e.

(** ** The FBP type map *)

(** [Runtime._type_map]: native Python types to FBP protocol types. *)
Definition _type_map : gmap pytype string :=
  list_to_map
    [ (py_str, "string");
      (py_unicode, "string");
      (py_bool, "boolean");
      (py_int, "int");
      (py_float, "number");
      (py_complex, "number");
      (py_dict, "object");
      (py_list, "array");
      (py_tuple, "array");
      (py_set, "array");
      (py_frozenset, "array") ].

(** [dict.get(key, default)] *)
Definition dict_get `{Countable K} {V} (d : gmap K V) (k : K) (dflt : V) : V :=
  default dflt (d !! k).

(** The closed enumeration of port-type categories as the specification
    lists it, and as the FBP protocol names them in [_type_map]. *)
Definition spec_categories : list string :=
  ["string"; "boolean"; "integer"; "number"; "object"; "array"; "any"].

Definition protocol_categories : list string :=
  ["string"; "boolean"; "int"; "number"; "object"; "array"; "any"].

(** ** The core: ports, components and graphs *)

(** [pflow/core.py] is outside this development; the runtime only calls
    into it.  The definitions of this module follow sections 3 and 4 of the
    specification. *)
Module core.

(** Modelled from the spec: the direction of a port (input/output). *)
Inductive direction := Input | Output.

#[global] Instance direction_eq_dec : EqDecision direction.
Proof. solve_decision. Defined.

(** Modelled from the spec: the attributes of a [Port] (name, array flag,
    optional flag, allowed-type set, description, default value); the
    declaration of the class is in [core.py]. *)
Record Port := {
  port_name : string;
  allowed_types : gset pytype;
  port_description : option string;
  optional : bool;
  port_default : pyvalue;
  is_array : bool   (* isinstance(port, core.ArrayInputPort / ArrayOutputPort) *)
}.

(** Modelled from the spec: a [Component] has an identity name and
    order-preserving name-to-port mappings [inputs] and [outputs]; its
    class is declared in [core.py]. *)
Record Component := {
  comp_name : string;
  comp_doc : option string;
  inputs : list Port;
  outputs : list Port
}.

(** Modelled from the spec: a port object as the runtime holds it after
    [component.inputs[name]] or [component.outputs[name]]; a port is
    identified by its owner, its direction and its name ("unique within its
    component and direction"). *)
Record PortRef := {
  owner : string;
  dir : direction;
  pname : string
}.

#[global] Instance PortRef_eq_dec : EqDecision PortRef.
Proof. solve_decision. Defined.

(** Modelled from the spec: a [Graph] is an id, the components in a stable
    order, the live connections (source output port, target input port) and
    the live initial packets; the class is declared in [core.py]. *)
Record Graph := {
  graph_id : string;
  components : list Component;
  connections : list (PortRef * PortRef);
  initial_packets : list (PortRef * pyvalue)
}.

(** Modelled from the spec: [core.Graph(graph_id, initialize=False)], a
    graph is "created empty". *)
Definition Graph_new (id : string) : Graph :=
  {| graph_id := id; components := []; connections := [];
     initial_packets := [] |}.

#[global] Instance Graph_inhabited : Inhabited Graph :=
  populate (Graph_new "").

(** Modelled from the spec: a component of that name is "currently present"
    in the graph. *)
Definition has_component (g : Graph) (n : string) : bool :=
  existsb (fun c => bool_decide (comp_name c = n)) (components g).

(** Modelled from the spec: the port is the source or the target of the
    connection; the initial packet is bound to the port. *)
Definition on_port (p : PortRef) (c : PortRef * PortRef) : bool :=
  bool_decide (fst c = p) || bool_decide (snd c = p).

Definition iip_on (p : PortRef) (i : PortRef * pyvalue) : bool :=
  bool_decide (fst i = p).

(** Modelled from the spec: [port.is_connected()], the query the call sites
    make before detaching "a connection": the port is an end of a live
    connection.  The method is declared in [core.py]. *)
Definition is_connected (g : Graph) (p : PortRef) : bool :=
  existsb (on_port p) (connections g).

(** Modelled from the spec: the port carries an initial packet. *)
Definition has_initial_packet (g : Graph) (p : PortRef) : bool :=
  existsb (iip_on p) (initial_packets g).

(** Modelled from the spec: an attachment of a port is a live connection or
    an initial packet ("at most one attached connection or IIP"). *)
Definition is_attached (g : Graph) (p : PortRef) : bool :=
  is_connected g p || has_initial_packet g p.

(** Modelled from the spec: the literal value of the initial packet bound to
    the port, if there is one. *)
Definition initial_packet (g : Graph) (p : PortRef) : option pyvalue :=
  snd <$> find (iip_on p) (initial_packets g).

(** Modelled from the spec: the array flag of the port a reference denotes
    in the graph. *)
Definition port_is_array (g : Graph) (p : PortRef) : bool :=
  match find (fun c => bool_decide (comp_name c = owner p)) (components g) with
  | Some c =>
      match find (fun q => bool_decide (port_name q = pname p))
                 (match dir p with Input => inputs c | Output => outputs c end) with
      | Some q => is_array q
      | None => false
      end
  | None => false
  end.

(** Modelled from the spec: [Graph.add_component(component)] "fails with
    DuplicateNameError if name collision"; [core.py] is outside this development. *)
Definition add_component (c : Component) (g : Graph) : result Graph :=
  if has_component g (comp_name c) then Raise (DuplicateNameError (comp_name c))
  else Ok {| graph_id := graph_id g;
             components := components g ++ [c];
             connections := connections g;
             initial_packets := initial_packets g |}.

(** Modelled from the spec: [Graph.remove_component(name)] "fails with
    LookupError if absent; cascades detachment of all its ports'
    connections/IIPs"; [core.py] is outside this development. *)
Definition remove_component (n : string) (g : Graph) : result Graph :=
  if has_component g n then
    Ok {| graph_id := graph_id g;
          components := filter (fun c => comp_name c ≠ n) (components g);
          connections :=
            filter (fun c => owner (fst c) ≠ n ∧ owner (snd c) ≠ n) (connections g);
          initial_packets :=
            filter (fun i => owner (fst i) ≠ n) (initial_packets g) |}
  else Raise (LookupError n).

(** Modelled from the spec: [Graph.connect(source_port, target_port)]
    "fails with LookupError if either port's owning component is absent
    from the graph; fails with ConflictError if target already attached
    (connection or IIP) unless it is an array port with a free slot";
    [core.py] is outside this development. *)
Definition connect (s t : PortRef) (g : Graph) : result Graph :=
  if negb (has_component g (owner s)) then Raise (LookupError (owner s))
  else if negb (has_component g (owner t)) then Raise (LookupError (owner t))
  else if is_attached g t && negb (port_is_array g t) then
    Raise (ConflictError (pname t))
  else Ok {| graph_id := graph_id g;
             components := components g;
             connections := connections g ++ [(s, t)];
             initial_packets := initial_packets g |}.

(** Modelled from the spec: [Graph.disconnect(port)] "fails with
    LookupError if the port currently has no attachment; removes the
    Connection and/or IIP for that port"; [core.py] is outside this development. *)
Definition disconnect (p : PortRef) (g : Graph) : result Graph :=
  if is_attached g p then
    Ok {| graph_id := graph_id g;
          components := components g;
          connections := filter (fun c => ¬ on_port p c) (connections g);
          initial_packets := filter (fun i => ¬ iip_on p i) (initial_packets g) |}
  else Raise (LookupError (pname p)).

(** Modelled from the spec: [Graph.set_initial_packet(port, value)],
    "setting disconnects any existing live connection on that slot first,
    as a side effect"; [core.py] is outside this development. *)
Definition set_initial_packet (p : PortRef) (v : pyvalue) (g : Graph) : result Graph :=
  Ok {| graph_id := graph_id g;
        components := components g;
        connections := filter (fun c => ¬ on_port p c) (connections g);
        initial_packets :=
          filter (fun i => ¬ iip_on p i) (initial_packets g) ++ [(p, v)] |}.

(** Modelled from the spec: [Graph.unset_initial_packet(port)] removes the
    initial packet of the port; [core.py] is outside this development. *)
Definition unset_initial_packet (p : PortRef) (g : Graph) : result Graph :=
  Ok {| graph_id := graph_id g;
        components := components g;
        connections := connections g;
        initial_packets := filter (fun i => ¬ iip_on p i) (initial_packets g) |}.

End core.

(** ** Classes, the executor interface and the store *)

(** A Python class object as the runtime inspects it: the attributes
    [__module__], [__name__], [__doc__], the two [issubclass] tests the
    runtime makes, and the ports an instance of the class declares. *)
Record pyclass := {
  __module__ : string;
  __name__ : string;
  __doc__ : option string;
  is_Component : bool;            (* issubclass(cls, core.Component) *)
  is_Graph : bool;                (* issubclass(cls, core.Graph) *)
  class_inputs : list core.Port;
  class_outputs : list core.Port
}.

(** [component_class(name)]: a component of that name with the ports of its
    class; the constructor is taken to return. *)
Definition instantiate (cls : pyclass) (name : string) : core.Component :=
  {| core.comp_name := name;
     core.comp_doc := __doc__ cls;
     core.inputs := class_inputs cls;
     core.outputs := class_outputs cls |}.

(** References to objects in the store. *)
Definition loc := nat.

(** Modelled from the spec: the executor class handed to [Runtime.__init__]
    ([SingleProcessGraphExecutor] by default, declared in
    [pflow/executors/single_process.py]).  An executor is constructed from
    the graph it drives, [is_running()] is a pure query, and [execute()] and
    [stop()] act on the executor and on its graph and may raise; both are
    taken to come back to their caller. *)
Class GraphExecutor := {
  executor_state : Type;
  executor_init : core.Graph -> executor_state;
  is_running : executor_state -> bool;
  execute : executor_state -> core.Graph -> executor_state * core.Graph * option exn;
  executor_stop : executor_state -> core.Graph -> executor_state * core.Graph * option exn
}.

(** The entries of a component spec, as [_create_component_spec] builds
    them. *)
Record inport_spec := {
  in_id : string;
  in_type : string;
  in_description : string;
  in_addressable : bool;
  in_required : bool;
  in_default : pyvalue
}.

Record outport_spec := {
  out_id : string;
  out_type : string;
  out_description : string;
  out_addressable : bool;
  out_required : bool
}.

Record component_spec := {
  spec_name : string;
  spec_description : string;
  spec_subgraph : bool;
  inPorts : list inport_spec;
  outPorts : list outport_spec
}.

(** A value of [Runtime._components]: [{'class': ..., 'spec': ...}]. *)
Record component_options := {
  opt_class : pyclass;
  opt_spec : component_spec
}.

(** The calls the runtime makes on a [Graph] object. *)
Inductive graph_call :=
  | call_add_component (c : core.Component)
  | call_remove_component (n : string)
  | call_connect (s t : core.PortRef)
  | call_disconnect (p : core.PortRef)
  | call_set_initial_packet (p : core.PortRef) (v : pyvalue)
  | call_unset_initial_packet (p : core.PortRef).

Definition run_graph_call (c : graph_call) : core.Graph -> result core.Graph :=
  match c with
  | call_add_component x => core.add_component x
  | call_remove_component n => core.remove_component n
  | call_connect s t => core.connect s t
  | call_disconnect p => core.disconnect p
  | call_set_initial_packet p v => core.set_initial_packet p v
  | call_unset_initial_packet p => core.unset_initial_packet p
  end.

(** One entry of the call history: the receiver, its state when the call was
    made, and the call. *)
Record graph_event := {
  ev_graph : loc;
  ev_before : core.Graph;
  ev_call : graph_call
}.

(** An endpoint of a protocol message: [{'node': ..., 'port': ...}]. *)
Record endpoint := {
  node : string;
  port : string
}.

(** [get_port_type], the helper local to [_create_component_spec].  The
    allowed types are a set: [len] is the number of its elements and
    [next(iter(...))] on a set of one element is that element. *)
Definition get_port_type (port : core.Port) (default_type : string) : string :=
  match elements (core.allowed_types port) with
  | [] => default_type
  | [first_type] =>
      let mapped_type := dict_get _type_map first_type default_type in
      mapped_type
  | _ :: _ :: _ => default_type
  end.

Section Runtime.

Context {executor_class : GraphExecutor}.

(** [textwrap.dedent(s).strip()] *)
Variable dedent_strip : string -> string.

(** An executor object: the graph it was constructed with and its own
    state. *)
Record Executor := {
  ex_graph : loc;
  ex_state : executor_state
}.

#[global] Instance Executor_inhabited : Inhabited Executor :=
  populate {| ex_graph := 0; ex_state := executor_init inhabitant |}.

(** The runtime object ([self._components], [self._graphs],
    [self._executors]), the store of graph and executor objects the
    dictionaries refer to, and the history of calls on graphs. *)
Record World := {
  _components : gmap string component_options;
  _graphs : gmap string loc;
  _executors : gmap string loc;
  graph_store : list core.Graph;
  executor_store : list Executor;
  history : list graph_event
}.

(** [Runtime.__init__] *)
Definition init : World :=
  {| _components := ∅; _graphs := ∅; _executors := ∅;
     graph_store := []; executor_store := []; history := [] |}.

Definition set_components (f : gmap string component_options -> gmap string component_options)
    (w : World) : World :=
  {| _components := f (_components w); _graphs := _graphs w;
     _executors := _executors w; graph_store := graph_store w;
     executor_store := executor_store w; history := history w |}.

Definition set_graphs (f : gmap string loc -> gmap string loc) (w : World) : World :=
  {| _components := _components w; _graphs := f (_graphs w);
     _executors := _executors w; graph_store := graph_store w;
     executor_store := executor_store w; history := history w |}.

Definition set_executors (f : gmap string loc -> gmap string loc) (w : World) : World :=
  {| _components := _components w; _graphs := _graphs w;
     _executors := f (_executors w); graph_store := graph_store w;
     executor_store := executor_store w; history := history w |}.

Definition set_graph_store (f : list core.Graph -> list core.Graph) (w : World) : World :=
  {| _components := _components w; _graphs := _graphs w;
     _executors := _executors w; graph_store := f (graph_store w);
     executor_store := executor_store w; history := history w |}.

Definition set_executor_store (f : list Executor -> list Executor) (w : World) : World :=
  {| _components := _components w; _graphs := _graphs w;
     _executors := _executors w; graph_store := graph_store w;
     executor_store := f (executor_store w); history := history w |}.

Definition set_history (f : list graph_event -> list graph_event) (w : World) : World :=
  {| _components := _components w; _graphs := _graphs w;
     _executors := _executors w; graph_store := graph_store w;
     executor_store := executor_store w; history := f (history w) |}.

(** *** Statements: a state monad in which an exception keeps the state *)

Definition M (A : Type) : Type := World -> World * result A.

#[global] Instance M_ret : MRet M := fun A a w => (w, Ok a).

#[global] Instance M_bind : MBind M := fun A B k m w =>
  match m w with
  | (w', Ok a) => k a w'
  | (w', Raise e) => (w', Raise e)
  end.

Definition raise {A} (e : exn) : M A := fun w => (w, Raise e).
Definition gets {A} (f : World -> A) : M A := fun w => (w, Ok (f w)).
Definition modify (f : World -> World) : M unit := fun w => (f w, Ok tt).

(** [d[key]] on a dictionary with string keys *)
Definition getitem {V} (d : gmap string V) (key : string) : M V :=
  match d !! key with
  | Some v => mret v
  | None => raise (KeyError key)
  end.

(** A method call on the graph object [g]: the call is recorded, and its
    effect is stored unless it raises. *)
Definition on_graph (g : loc) (c : graph_call) : M unit := fun w =>
  let before := graph_store w !!! g in
  let w1 := set_history (fun h => h ++ [{| ev_graph := g; ev_before := before; ev_call := c |}]) w in
  match run_graph_call c before with
  | Ok after => (set_graph_store (fun s => <[g := after]> s) w1, Ok tt)
  | Raise e => (w1, Raise e)
  end.

(** Allocation of a new object at the end of a store. *)
Definition new_graph_object (g : core.Graph) : M loc := fun w =>
  (set_graph_store (fun s => s ++ [g]) w, Ok (length (graph_store w))).

Definition new_executor_object (e : Executor) : M loc := fun w =>
  (set_executor_store (fun s => s ++ [e]) w, Ok (length (executor_store w))).

(** *** Component registry *)

Definition _long_class_name (component_class : pyclass) : string :=
  __module__ component_class +:+ "/" +:+ __name__ component_class.

Definition _short_class_name (component_class : pyclass) : string :=
  __name__ component_class.

Definition _create_component_spec (component_class_name : string)
    (component_class : pyclass) : M component_spec :=
  if negb (is_Component component_class) then
    raise (ValueError "component_class must be a Component")
  else
    let component := instantiate component_class "FAKE_NAME" in
    mret {|
      spec_name := component_class_name;
      spec_description := dedent_strip (default "" (core.comp_doc component));
      spec_subgraph := is_Graph component_class;
      inPorts :=
        map (fun inport =>
               {| in_id := core.port_name inport;
                  in_type := get_port_type inport "any";
                  in_description := default "" (core.port_description inport);
                  in_addressable := core.is_array inport;
                  in_required := negb (core.optional inport);
                  in_default := core.port_default inport |})
            (core.inputs component);
      outPorts :=
        map (fun outport =>
               {| out_id := core.port_name outport;
                  out_type := get_port_type outport "any";
                  out_description := default "" (core.port_description outport);
                  out_addressable := core.is_array outport;
                  out_required := negb (core.optional outport) |})
            (core.outputs component)
    |}.

Definition register_component (component_class : pyclass) (overwrite : bool) : M unit :=
  if negb (is_Component component_class) then
    raise (ValueError "component_class must be a class that inherits from Component")
  else
    let long_name := _long_class_name component_class in
    let short_name := _short_class_name component_class in
    components ← gets _components;
    if bool_decide (long_name ∈ dom components) && negb overwrite then
      raise (ValueError ("Component " +:+ long_name +:+ " already registered"))
    else
      spec ← _create_component_spec long_name component_class;
      modify (set_components
                <[long_name := {| opt_class := component_class; opt_spec := spec |}]>).

(** *** Execution control *)

(** [executor.is_running()] *)
Definition executor_is_running (e : loc) : M bool :=
  gets (fun w => is_running (ex_state (executor_store w !!! e))).

(** A method of the executor [e] that acts on the executor and on the
    graph it drives. *)
Definition on_executor
    (method : executor_state -> core.Graph -> executor_state * core.Graph * option exn)
    (e : loc) : M unit := fun w =>
  let ex := executor_store w !!! e in
  let '(st, g, err) := method (ex_state ex) (graph_store w !!! ex_graph ex) in
  let w' :=
    set_graph_store (fun s => <[ex_graph ex := g]> s)
      (set_executor_store
         (fun s => <[e := {| ex_graph := ex_graph ex; ex_state := st |}]> s) w) in
  (w', match err with None => Ok tt | Some x => Raise x end).

Definition is_started (graph_id : string) : M bool :=
  executors ← gets _executors;
  match executors !! graph_id with
  | None => mret false
  | Some e => executor_is_running e
  end.

Definition start (graph_id : string) : M unit :=
  graphs ← gets _graphs;
  graph ← getitem graphs graph_id;
  executors ← gets _executors;
  executor ← match executors !! graph_id with
             | None =>
                 (* Create executor *)
                 g ← gets (fun w => graph_store w !!! graph);
                 e ← new_executor_object
                       {| ex_graph := graph; ex_state := executor_init g |};
                 modify (set_executors <[graph_id := e]>);;
                 mret e
             | Some e => mret e
             end;
  running ← executor_is_running executor;
  if running : bool then
    raise (ValueError ("Graph " +:+ graph_id +:+ " is already started"))
  else
    on_executor execute executor.

Definition stop (graph_id : string) : M unit :=
  executors ← gets _executors;
  match executors !! graph_id with
  | None => raise (ValueError ("Invalid graph: " +:+ graph_id))
  | Some executor =>
      on_executor executor_stop executor;;
      modify (set_executors (delete graph_id))
  end.

(** *** Graph edits *)

Definition _create_or_get_graph (graph_id : string) : M loc :=
  graphs ← gets _graphs;
  match graphs !! graph_id with
  | None =>
      g ← new_graph_object (core.Graph_new graph_id);
      modify (set_graphs <[graph_id := g]>)
  | Some _ => mret tt
  end;;
  graphs ← gets _graphs;
  getitem graphs graph_id.

(** The first component of that name, or [None]. *)
Definition _find_component_by_name (graph : loc) (component_name : string)
    : M (option core.Component) :=
  gets (fun w =>
          find (fun component => bool_decide (core.comp_name component = component_name))
               (core.components (graph_store w !!! graph))).

(** [component.inputs[name]] and [component.outputs[name]], where
    [component] is what [_find_component_by_name] returned. *)
Definition port_of (d : core.direction) (component : option core.Component)
    (name : string) : M core.PortRef :=
  match component with
  | None =>
      raise (AttributeError
               ("'NoneType' object has no attribute '" +:+
                match d with core.Input => "inputs" | core.Output => "outputs" end
                +:+ "'"))
  | Some c =>
      match find (fun q => bool_decide (core.port_name q = name))
                 (match d with core.Input => core.inputs c | core.Output => core.outputs c end) with
      | Some q => mret {| core.owner := core.comp_name c; core.dir := d;
                          core.pname := core.port_name q |}
      | None => raise (KeyError name)
      end
  end.

(** [port.is_connected()] for a port of a component of [graph]. *)
Definition port_is_connected (graph : loc) (p : core.PortRef) : M bool :=
  gets (fun w => core.is_connected (graph_store w !!! graph) p).

Definition new_graph (graph_id : string) : M unit :=
  g ← new_graph_object (core.Graph_new graph_id);
  modify (set_graphs <[graph_id := g]>).

Definition add_node (graph_id node_id component_id : string) : M unit :=
  graph ← _create_or_get_graph graph_id;
  components ← gets _components;
  options ← getitem components component_id;
  let component_class := opt_class options in
  let component := instantiate component_class node_id in
  on_graph graph (call_add_component component).

Definition remove_node (graph_id node_id : string) : M unit :=
  graph ← _create_or_get_graph graph_id;
  on_graph graph (call_remove_component node_id).

Definition add_edge (graph_id : string) (src tgt : endpoint) : M unit :=
  graphs ← gets _graphs;
  graph ← getitem graphs graph_id;
  source_component ← _find_component_by_name graph (node src);
  source_port ← port_of core.Output source_component (port src);
  target_component ← _find_component_by_name graph (node tgt);
  target_port ← port_of core.Input target_component (port tgt);
  on_graph graph (call_connect source_port target_port).

Definition remove_edge (graph_id : string) (src tgt : endpoint) : M unit :=
  graphs ← gets _graphs;
  graph ← getitem graphs graph_id;
  source_component ← _find_component_by_name graph (node src);
  source_port ← port_of core.Output source_component (port src);
  connected ← port_is_connected graph source_port;
  (if connected : bool then on_graph graph (call_disconnect source_port) else mret tt);;
  target_component ← _find_component_by_name graph (node tgt);
  target_port ← port_of core.Input target_component (port tgt);
  connected ← port_is_connected graph target_port;
  (if connected : bool then on_graph graph (call_disconnect target_port) else mret tt).

Definition add_iip (graph_id : string) (src : endpoint) (data : pyvalue) : M unit :=
  graphs ← gets _graphs;
  graph ← getitem graphs graph_id;
  target_component ← _find_component_by_name graph (node src);
  target_port ← port_of core.Input target_component (port src);
  connected ← port_is_connected graph target_port;
  (if connected : bool then on_graph graph (call_disconnect target_port) else mret tt);;
  on_graph graph (call_set_initial_packet target_port data).

Definition remove_iip (graph_id : string) (src : endpoint) : M unit :=
  graphs ← gets _graphs;
  graph ← getitem graphs graph_id;
  target_component ← _find_component_by_name graph (node src);
  target_port ← port_of core.Input target_component (port src);
  connected ← port_is_connected graph target_port;
  (if connected : bool then on_graph graph (call_disconnect target_port) else mret tt);;
  on_graph graph (call_unset_initial_packet target_port).

End Runtime.

(** ** The default executor *)

(** Modelled from the spec: the states of an executor, "idle (constructed,
    not yet started) → running → stopped (terminal for this instance)";
    [pflow/executors/single_process.py] is outside this development. *)
Inductive executor_phase := idle | running | stopped.

(** Modelled from the spec: [is_running()] is "false before first execute()
    and after stop()"; [execute()] "transitions idle→running" and "fails with
    StateError if already running"; [stop()] "transitions running→stopped;
    fails with StateError if not running". *)
#[global] Instance SingleProcessGraphExecutor : GraphExecutor := {|
  executor_state := executor_phase;
  executor_init := fun _ => idle;
  is_running := fun s => match s with running => true | _ => false end;
  execute := fun s g =>
    match s with
    | idle => (running, g, None)
    | running => (s, g, Some (StateError "already running"))
    | stopped => (s, g, Some (StateError "stopped"))
    end;
  executor_stop := fun s g =>
    match s with
    | running => (stopped, g, None)
    | _ => (s, g, Some (StateError "not running"))
    end
|}.

(** ** Sample classes and runtime states *)

Definition in_port : core.Port :=
  {| core.port_name := "in"; core.allowed_types := {[ py_str ]};
     core.port_description := Some "text to repeat"; core.optional := false;
     core.port_default := PyNone; core.is_array := false |}.

Definition out_port : core.Port :=
  {| core.port_name := "out"; core.allowed_types := ∅;
     core.port_description := None; core.optional := true;
     core.port_default := PyNone; core.is_array := false |}.

Definition count_port : core.Port :=
  {| core.port_name := "count"; core.allowed_types := {[ py_int; py_float ]};
     core.port_description := None; core.optional := true;
     core.port_default := PyInt 1; core.is_array := false |}.

Definition widget_port : core.Port :=
  {| core.port_name := "widget"; core.allowed_types := {[ py_class "gui.Widget" ]};
     core.port_description := None; core.optional := true;
     core.port_default := PyNone; core.is_array := false |}.

(** A component class of [pflow.components] with two inputs and one output. *)
Definition Repeat : pyclass :=
  {| __module__ := "pflow.components"; __name__ := "Repeat";
     __doc__ := Some "Repeats its input.";
     is_Component := true; is_Graph := false;
     class_inputs := [in_port; count_port]; class_outputs := [out_port] |}.


Definition run {A} (m : M A) (w : World) : World := fst (m w).

(** A runtime with [Repeat] registered and a graph ["main"] of two nodes
    ["a"] and ["b"] with an edge from [a.out] to [b.in]. *)
Definition wired_world : World :=
  run (add_edge "main" {| node := "a"; port := "out" |} {| node := "b"; port := "in" |})
    (run (add_node "main" "b" "pflow.components/Repeat")
       (run (add_node "main" "a" "pflow.components/Repeat")
          (run (new_graph "main")
             (run (register_component id Repeat false) init)))).

(** The same runtime after [start("main")]. *)
Definition started_world : World := run (start "main") wired_world.

(** ** Reachable runtime states *)

Section Reachable.

Context {executor_class : GraphExecutor}.
Variable dedent_strip : string -> string.

(** The state-changing methods of [Runtime], as the websocket application
    and [register_module] call them. *)
Inductive request :=
  | do_register_component (component_class : pyclass) (overwrite : bool)
  | do_start (graph_id : string)
  | do_stop (graph_id : string)
  | do_new_graph (graph_id : string)
  | do_add_node (graph_id node_id component_id : string)
  | do_remove_node (graph_id node_id : string)
  | do_add_edge (graph_id : string) (src tgt : endpoint)
  | do_remove_edge (graph_id : string) (src tgt : endpoint)
  | do_add_iip (graph_id : string) (src : endpoint) (data : pyvalue)
  | do_remove_iip (graph_id : string) (src : endpoint).

Definition perform (r : request) : M unit :=
  match r with
  | do_register_component c o => register_component dedent_strip c o
  | do_start g => start g
  | do_stop g => stop g
  | do_new_graph g => new_graph g
  | do_add_node g n c => add_node g n c
  | do_remove_node g n => remove_node g n
  | do_add_edge g s t => add_edge g s t
  | do_remove_edge g s t => remove_edge g s t
  | do_add_iip g s d => add_iip g s d
  | do_remove_iip g s => remove_iip g s
  end.

(** The states of a runtime after [__init__] and any sequence of method
    calls, whether they return or raise. *)
Inductive reachable : World -> Prop :=
  | reachable_init : reachable init
  | reachable_step w r : reachable w -> reachable (fst (perform r w)).

(** Every reference held by a dictionary or by an executor denotes an
    object of the store, and a graph id with an executor has a graph. *)
Record well_formed (w : World) : Prop := {
  wf_graphs : ∀ g l, _graphs w !! g = Some l → l < length (graph_store w);
  wf_executors : ∀ g e, _executors w !! g = Some e →
                        e < length (executor_store w) ∧ is_Some (_graphs w !! g);
  wf_bound : ∀ e ex, executor_store w !! e = Some ex →
                     ex_graph ex < length (graph_store w)
}.

(** The states in which [start(graph_id)] has not been called yet. *)
Inductive before_first_start (graph_id : string) : World -> Prop :=
  | not_started_init : before_first_start graph_id init
  | not_started_step w r :
      before_first_start graph_id w -> r ≠ do_start graph_id ->
      before_first_start graph_id (fst (perform r w)).

End Reachable.

(** ** Properties of statements *)

(** A statement keeps [P] when [P] holds after it, whether it returns or
    raises. *)
Definition preserves `{GraphExecutor} (P : World -> Prop) {A} (m : M A) : Prop :=
  ∀ w, P w → P (fst (m w)).

(** A statement that reads the state and does not change it. *)
Definition pure `{GraphExecutor} {A} (m : M A) : Prop := ∀ w, fst (m w) = w.

(** The graph id has no entry in [self._executors]. *)
Definition no_executor `{GraphExecutor} (graph_id : string) (w : World) : Prop :=
  _executors w !! graph_id = None.

(** A recorded call is guarded when it is not a [disconnect], or the port was
    connected, hence attached, in the state the call was made in. *)
Definition guarded (ev : graph_event) : Prop :=
  match ev_call ev with
  | call_disconnect p =>
      core.is_connected (ev_before ev) p = true ∧
      core.is_attached (ev_before ev) p = true
  | _ => True
  end.

(** Every call that [m] makes on a graph when run in [w] is guarded. *)
Definition records_guarded `{GraphExecutor} {A} (m : M A) (w : World) : Prop :=
  ∃ evs, history (fst (m w)) = history w ++ evs ∧ Forall guarded evs.

(** [started_world] after [stop("main")], and a runtime with only [Repeat]
    registered. *)
Definition stopped_world : World := run (stop "main") started_world.

Definition registry_world : World := run (register_component id Repeat false) init.

(** ** Registration of modules, specs and source code *)

(** The attributes of a module as the loop of [register_module] sees them:
    a class together with what [class_obj != core.Component] and
    [inspect.isabstract(class_obj)] answer for it, or anything else (a
    function, a submodule, a constant). *)
Inductive pyobject :=
  | obj_class (cls : pyclass) (is_core_Component : bool) (isabstract : bool)
  | obj_other.

(** The argument of [register_module]: a string (the name of a module), a
    module with its name and, in the order of [dir(module)], its
    attributes, or an object that is neither. *)
Inductive module_argument :=
  | arg_str (s : string)
  | arg_module (name : string) (attrs : list (string * pyobject))
  | arg_object (o : pyobject).

(** The test of the loop of [register_module]: a class, not
    [core.Component] itself, not abstract, not a graph, a component. *)
Definition registrable (class_obj : pyobject) : option pyclass :=
  match class_obj with
  | obj_class cls is_core_Component isabstract =>
      if negb is_core_Component && negb isabstract &&
         negb (is_Graph cls) && is_Component cls
      then Some cls else None
  | _ => None
  end.

(** [library_name, short_component_name = component_name.split('/', 1)] in
    [handle_component]: the parts before and after the first slash; without
    a slash the unpacking of the one-element list raises ValueError. *)
Fixpoint split_first_slash (s : string) : option (string * string) :=
  match s with
  | EmptyString => None
  | String a rest =>
      if Ascii.eqb a "/"%char then Some (EmptyString, rest)
      else match split_first_slash rest with
           | Some (l, r) => Some (String a l, r)
           | None => None
           end
  end.

Definition split_component_name (component_name : string) : result (string * string) :=
  match split_first_slash component_name with
  | Some parts => Ok parts
  | None => Raise (ValueError "need more than 1 value to unpack")
  end.

(** The string has a slash. *)
Fixpoint contains_slash (s : string) : bool :=
  match s with
  | EmptyString => false
  | String a rest => Ascii.eqb a "/"%char || contains_slash rest
  end.

(** The classes of a module that [register_module] registers, in the order
    of [dir(module)]. *)
Definition module_classes (attrs : list (string * pyobject)) : list pyclass :=
  omap (fun attr => registrable (snd attr)) attrs.

Section Registration.

Context {executor_class : GraphExecutor}.

(** [textwrap.dedent(s).strip()], [__import__(name)], taken to return, and
    [inspect.getsource(component.__class__)], taken to return. *)
Variable dedent_strip : string -> string.
Variable __import__ : string -> module_argument.
Variable getsource : core.Component -> string.

(** [iteritems()] visits every entry once; the order does not matter for the
    dictionary that is built, since the keys are distinct. *)
Definition get_all_component_specs : M (gmap string component_spec) :=
  components ← gets _components;
  mret (map_fold (fun component_name component_options specs =>
                    <[component_name := opt_spec component_options]> specs)
                 ∅ components).

(** The loop of [register_module] over [dir(module)], with its counter. *)
Fixpoint register_attributes (attrs : list (string * pyobject)) (overwrite : bool)
    (registered : nat) : M nat :=
  match attrs with
  | [] => mret registered
  | (obj_name, class_obj) :: rest =>
      registered ← match registrable class_obj with
                   | Some cls =>
                       register_component dedent_strip cls overwrite;;
                       mret (S registered)
                   | None => mret registered
                   end;
      register_attributes rest overwrite registered
  end.

Definition register_module (module : module_argument) (overwrite : bool) : M unit :=
  let module := match module with
                | arg_str name => __import__ name
                | _ => module
                end in
  match module with
  | arg_module name attrs =>
      registered ← register_attributes attrs overwrite 0;
      (* a warning is logged when [registered = 0] *)
      mret tt
  | _ => raise (ValueError "module must be either a module or the name of a module")
  end.

(** The loop of [get_source_code] over [self._graphs.values()]: it stops at
    the first graph that has a component of that name. *)
Fixpoint find_in_graphs (graphs : list loc) (component_name : string)
    : M (option core.Component) :=
  match graphs with
  | [] => mret None
  | graph :: rest =>
      component ← _find_component_by_name graph component_name;
      match component with
      | Some c => mret (Some c)
      | None => find_in_graphs rest component_name
      end
  end.

(** The order in which a dictionary yields its values is not specified; the
    values are taken in the order of [map_to_list]. *)
Definition get_source_code (component_name : string) : M string :=
  graphs ← gets _graphs;
  component ← find_in_graphs (map_to_list graphs).*2 component_name;
  match component with
  | None => raise (ValueError ("No component named " +:+ component_name))
  | Some c => mret (getsource c)
  end.

End Registration.

(** The state after the loop of [register_module] over these classes: only
    the registry has changed, and only at the long names of the classes. *)
Definition registered_from `{GraphExecutor} (classes : list pyclass) (w w' : World)
    : Prop :=
  _graphs w' = _graphs w ∧ _executors w' = _executors w ∧
  graph_store w' = graph_store w ∧ executor_store w' = executor_store w ∧
  dom (_components w') = dom (_components w) ∪ list_to_set (_long_class_name <$> classes) ∧
  (∀ name, name ∉ _long_class_name <$> classes →
           _components w' !! name = _components w !! name) ∧
  (∀ name, name ∈ _long_class_name <$> classes →
           ∃ options, _components w' !! name = Some options ∧
                      opt_class options ∈ classes ∧
                      _long_class_name (opt_class options) = name).

(** The methods that edit a graph. *)
Definition edits_graph (r : request) : bool :=
  match r with
  | do_new_graph _ | do_add_node _ _ _ | do_remove_node _ _
  | do_add_edge _ _ _ | do_remove_edge _ _ _
  | do_add_iip _ _ _ | do_remove_iip _ _ => true
  | _ => false
  end.

(** The methods that may bind a graph id that is not bound yet. *)
Definition creates_graph (graph_id : string) (r : request) : bool :=
  match r with
  | do_new_graph g | do_add_node g _ _ | do_remove_node g _ =>
      bool_decide (g = graph_id)
  | _ => false
  end.

(** An entry of the registry is consistent when it sits under the long name
    of its class, the class is a component, and its spec is the one built
    from the class under that name. *)
Definition consistent_entry `{GraphExecutor} (dedent_strip : string -> string)
    (name : string) (options : component_options) : Prop :=
  is_Component (opt_class options) = true ∧
  name = _long_class_name (opt_class options) ∧
  ∀ w, _create_component_spec dedent_strip name (opt_class options) w
         = (w, Ok (opt_spec options)).

Definition consistent_registry `{GraphExecutor} (dedent_strip : string -> string)
    (w : World) : Prop :=
  map_Forall (consistent_entry dedent_strip) (_components w).

(** Every graph object has the graph id it was created for: graph ids are
    bound to objects of their own, and a registered executor drives an
    object of its graph id. *)
Definition owned_by `{GraphExecutor} (owners : list string) (w : World) : Prop :=
  length owners = length (graph_store w) ∧
  (∀ g l, _graphs w !! g = Some l → owners !! l = Some g) ∧
  (∀ g e, _executors w !! g = Some e →
          ∃ ex, executor_store w !! e = Some ex ∧ owners !! ex_graph ex = Some g).

Definition graphs_owned `{GraphExecutor} (w : World) : Prop :=
  ∃ owners, owned_by owners w.

(** A module with the same class under two names, and one with a graph
    class, an abstract class, [core.Component] itself and a function beside
    a component class. *)
Definition Component_class : pyclass :=
  {| __module__ := "pflow.core"; __name__ := "Component"; __doc__ := None;
     is_Component := true; is_Graph := false;
     class_inputs := []; class_outputs := [] |}.

Definition Graph_class : pyclass :=
  {| __module__ := "pflow.core"; __name__ := "Graph"; __doc__ := None;
     is_Component := true; is_Graph := true;
     class_inputs := []; class_outputs := [] |}.

Definition aliased_module : module_argument :=
  arg_module "pflow.components"
    [ ("Again", obj_class Repeat false false);
      ("Repeat", obj_class Repeat false false) ].

Definition mixed_module : module_argument :=
  arg_module "pflow.components"
    [ ("Component", obj_class Component_class true true);
      ("Graph", obj_class Graph_class false false);
      ("Repeat", obj_class Repeat false false);
      ("keepalive", obj_other) ].

(** An executor class whose [execute()] and [stop()] raise, a runtime of
    that class with an empty graph ["main"], and that runtime after the
    failed [start("main")]. *)
Definition BrokenExecutor : GraphExecutor := {|
  executor_state := unit;
  executor_init := fun _ => tt;
  is_running := fun _ => false;
  execute := fun s g => (s, g, Some (ValueError "cannot execute"));
  executor_stop := fun s g => (s, g, Some (ValueError "cannot stop"))
|}.

Definition broken_world : @World BrokenExecutor :=
  fst (@new_graph BrokenExecutor "main" (@init BrokenExecutor)).

Definition broken_started_world : @World BrokenExecutor :=
  fst (@start BrokenExecutor "main" broken_world).

(** [wired_world] with a second graph ["aux"]. *)
Definition two_graph_world : World :=
  run (start "aux") (run (new_graph "aux") started_world).

(** ** Port types *)

(** What the specification says about the type reported for a port whose
    allowed-type set is [s]. *)
Definition type_by_size (s : gset pytype) (ty : string) : Prop :=
  (size s = 0 → ty = "any") ∧
  (∀ t, s = {[ t ]} → ty = default "any" (_type_map !! t)) ∧
  (1 < size s → ty = "any").


Lemma type_map_entries t v :
  _type_map !! t = Some v →
  (t, v) ∈ [ (py_str, "string"); (py_unicode, "string"); (py_bool, "boolean");
             (py_int, "int"); (py_float, "number"); (py_complex, "number");
             (py_dict, "object"); (py_list, "array"); (py_tuple, "array");
             (py_set, "array"); (py_frozenset, "array") ].
Proof. intros Hl. by apply elem_of_list_to_map_2 in Hl. Qed.

Lemma in_categories (v : string) (l : list string) :
  bool_decide (v ∈ l) = true → v ∈ l.
Proof. apply bool_decide_eq_true_1. Qed.

(** C5, as stated, fails: [int] is mapped to ["int"], which is not among the
    seven category names of the specification. *)
Lemma type_map_int_not_in_spec_categories :
  ¬ (∀ t v, _type_map !! t = Some v → v ∈ spec_categories).
Proof.
  intros Hall.
  assert (Hint : _type_map !! py_int = Some "int") by (vm_compute; reflexivity).
  apply Hall in Hint.
  revert Hint. apply (bool_decide_eq_false_1 ("int" ∈ spec_categories)).
  vm_compute. reflexivity.
Qed.

(** C5, amended: every value of [_type_map] is one of the FBP protocol names
    string, boolean, int, number, object, array, any. *)
Theorem type_map_range t v :
  _type_map !! t = Some v → v ∈ protocol_categories.
Proof.
  intros Hl. apply type_map_entries in Hl.
  repeat (apply elem_of_cons in Hl as [Heq | Hl];
          [ injection Heq as -> ->; apply in_categories; vm_compute; reflexivity | ]).
  by apply elem_of_nil in Hl.
Qed.

Lemma type_map_range_witness :
  _type_map !! py_frozenset = Some "array" ∧ "array" ∈ protocol_categories.
Proof.
  assert (H : _type_map !! py_frozenset = Some "array") by (vm_compute; reflexivity).
  split; [exact H | exact (type_map_range py_frozenset "array" H)].
Defined.

Lemma get_port_type_by_size (p : core.Port) :
  type_by_size (core.allowed_types p) (get_port_type p "any").
Proof.
  unfold type_by_size, get_port_type, dict_get.
  split; [| split].
  - intros Hs. apply size_empty_inv in Hs. apply leibniz_equiv in Hs.
    by rewrite Hs, elements_empty.
  - intros t ->. by rewrite elements_singleton.
  - intros Hs. unfold size, set_size in Hs. simpl in Hs.
    destruct (elements (core.allowed_types p)) as [| a [| b l]]; simpl in Hs;
      [lia | lia | done].
Qed.

(** C6: in a component spec, the type of every input and output port follows
    from the size of its allowed-type set: "any" for the empty set, the type
    map's entry (or "any" when there is none) for a set of one type, "any"
    for more than one. *)
Theorem component_spec_port_types `{GraphExecutor} (dedent_strip : string → string)
    (component_class_name : string) (component_class : pyclass)
    (w w' : World) (spec : component_spec) :
  _create_component_spec dedent_strip component_class_name component_class w
    = (w', Ok spec) →
  Forall2 (fun p s => type_by_size (core.allowed_types p) (in_type s))
          (class_inputs component_class) (inPorts spec) ∧
  Forall2 (fun p s => type_by_size (core.allowed_types p) (out_type s))
          (class_outputs component_class) (outPorts spec).
Proof.
  unfold _create_component_spec.
  destruct (is_Component component_class); simpl; [| discriminate].
  intros [= <- <-]. simpl. split.
  - induction (class_inputs component_class); constructor; simpl; auto using get_port_type_by_size.
  - induction (class_outputs component_class); constructor; simpl; auto using get_port_type_by_size.
Qed.

Lemma component_spec_port_types_witness :
  ∃ spec,
    snd (_create_component_spec id "pflow.components/Repeat" Repeat init) = Ok spec ∧
    map in_type (inPorts spec) = ["string"; "any"] ∧
    Forall2 (fun p s => type_by_size (core.allowed_types p) (in_type s))
            (class_inputs Repeat) (inPorts spec) ∧
    Forall2 (fun p s => type_by_size (core.allowed_types p) (out_type s))
            (class_outputs Repeat) (outPorts spec).
Proof.
  eexists. split; [reflexivity |]. split; [vm_compute; reflexivity |].
  apply (component_spec_port_types id "pflow.components/Repeat" Repeat init init).
  reflexivity.
Defined.

(** ** Lists and the operations of the core *)

Lemma lookup_total_snoc {A} `{Inhabited A} (s : list A) (x : A) :
  (s ++ [x]) !!! length s = x.
Proof. apply list_lookup_total_correct. by apply list_lookup_middle. Qed.

Lemma insert_snoc {A} (s : list A) (x y : A) :
  <[length s := y]> (s ++ [x]) = s ++ [y].
Proof. rewrite insert_app_r_alt by lia. by rewrite Nat.sub_diag. Qed.

Lemma existsb_filter_neg {A} (f : A → bool) (l : list A) :
  existsb f (filter (λ x, ¬ f x) l) = false.
Proof.
  induction l as [| a l IH]; [done |].
  rewrite filter_cons. destruct (decide (¬ f a)) as [Hn | Hn]; [| done].
  simpl. rewrite IH. by destruct (f a).
Qed.

Lemma find_filter_neg_snoc {A} (f : A → bool) (l : list A) (x : A) :
  f x = true → find f (filter (λ y, ¬ f y) l ++ [x]) = Some x.
Proof.
  intros Hx. induction l as [| a l IH]; simpl; [by rewrite Hx |].
  rewrite filter_cons. destruct (decide (¬ f a)) as [Hn | Hn]; [| done].
  simpl. by destruct (f a).
Qed.

Lemma find_name {A} (name : A → string) (n : string) (l : list A) (x : A) :
  find (λ y, bool_decide (name y = n)) l = Some x → name x = n.
Proof. intros [_ Hx]%find_some. by apply bool_decide_eq_true in Hx. Qed.

Lemma disconnect_not_connected p g g' :
  core.disconnect p g = Ok g' → core.is_connected g' p = false.
Proof.
  unfold core.disconnect. destruct (core.is_attached g p); [| discriminate].
  intros [= <-]. apply existsb_filter_neg.
Qed.

Lemma disconnect_connected_ok p g :
  core.is_connected g p = true → ∃ g', core.disconnect p g = Ok g'.
Proof.
  intros Hc. unfold core.disconnect, core.is_attached. rewrite Hc. simpl. eauto.
Qed.

Lemma set_initial_packet_spec p v g :
  ∃ g', core.set_initial_packet p v g = Ok g' ∧
        core.is_connected g' p = false ∧
        core.initial_packet g' p = Some v.
Proof.
  eexists. split; [reflexivity |]. split; [apply existsb_filter_neg |].
  unfold core.initial_packet. simpl.
  rewrite (find_filter_neg_snoc (core.iip_on p) _ (p, v)); [done |].
  unfold core.iip_on. simpl. by apply bool_decide_eq_true.
Qed.

(** ** Rules for statements *)

Ltac msimpl :=
  unfold mbind, M_bind, mret, M_ret, gets, modify, raise, getitem in *; simpl in *.

Create HintDb runtime.

Section Rules.

Context {executor_class : GraphExecutor}.

Lemma pure_ret {A} (a : A) : pure (mret a).
Proof. done. Qed.

Lemma pure_raise {A} e : pure (raise (A := A) e).
Proof. done. Qed.

Lemma pure_gets {A} (f : World → A) : pure (gets f).
Proof. done. Qed.

Lemma pure_getitem {V} (d : gmap string V) k : pure (getitem d k).
Proof. intros w. unfold getitem. by destruct (d !! k). Qed.

Lemma pure_port_of d c n : pure (port_of d c n).
Proof.
  intros w. unfold port_of. destruct c as [c |]; [| done]. by destruct (find _ _).
Qed.

Lemma pure_find_component g n : pure (_find_component_by_name g n).
Proof. done. Qed.

Lemma pure_port_is_connected g p : pure (port_is_connected g p).
Proof. done. Qed.

Lemma pure_executor_is_running e : pure (executor_is_running e).
Proof. done. Qed.

Lemma preserves_pure P {A} (m : M A) : pure m → preserves P m.
Proof. intros Hm w Hw. by rewrite Hm. Qed.

Lemma preserves_bind P {A B} (m : M A) (k : A → M B) :
  preserves P m → (∀ a, preserves P (k a)) → preserves P (m ≫= k).
Proof.
  intros Hm Hk w Hw. specialize (Hm w Hw). unfold mbind, M_bind.
  destruct (m w) as [w1 [a | e]]; simpl in *; [by apply Hk | done].
Qed.

Lemma preserves_if P {A} (b : bool) (m1 m2 : M A) :
  preserves P m1 → preserves P m2 → preserves P (if b then m1 else m2).
Proof. by destruct b. Qed.

End Rules.

#[global] Hint Resolve pure_ret pure_raise pure_gets pure_getitem pure_port_of
  pure_find_component pure_port_is_connected pure_executor_is_running : runtime.
#[global] Hint Resolve preserves_pure preserves_if : runtime.

Ltac preserves_step :=
  first [ apply preserves_bind; [| intros ?] | progress auto with runtime ].

(** The methods that edit graphs or the registry keep every property that
    the calls on graph objects, the creation of graphs and the registry
    update keep. *)
Section Preservation.

Context {executor_class : GraphExecutor}.
Variable dedent_strip : string -> string.
Variable P : World -> Prop.

Hypothesis P_on_graph : ∀ g c, preserves P (on_graph g c).
Hypothesis P_new_graph : ∀ id, preserves P (new_graph id).
Hypothesis P_components : ∀ f w, P w → P (set_components f w).

#[local] Hint Resolve P_on_graph : runtime.

Lemma preserves_create_or_get_graph id : preserves P (_create_or_get_graph id).
Proof.
  intros w Hw. unfold _create_or_get_graph. msimpl.
  destruct (_graphs w !! id) as [l |] eqn:Hl; simpl.
  - by rewrite Hl.
  - rewrite lookup_insert_eq. simpl. by apply (P_new_graph id w).
Qed.

Lemma preserves_register_component c o :
  preserves P (register_component dedent_strip c o).
Proof.
  intros w Hw. unfold register_component, _create_component_spec. msimpl.
  destruct (is_Component c); simpl; [| done].
  destruct (_ && _); simpl; [done |]. by apply P_components.
Qed.

Lemma preserves_add_node g n c : preserves P (add_node g n c).
Proof.
  unfold add_node. apply preserves_bind; [apply preserves_create_or_get_graph |].
  intros ?. repeat preserves_step.
Qed.

Lemma preserves_remove_node g n : preserves P (remove_node g n).
Proof.
  unfold remove_node. apply preserves_bind; [apply preserves_create_or_get_graph |].
  intros ?. repeat preserves_step.
Qed.

Lemma preserves_add_edge g s t : preserves P (add_edge g s t).
Proof. unfold add_edge. repeat preserves_step. Qed.

Lemma preserves_remove_edge g s t : preserves P (remove_edge g s t).
Proof. unfold remove_edge. repeat preserves_step. Qed.

Lemma preserves_add_iip g s d : preserves P (add_iip g s d).
Proof. unfold add_iip. repeat preserves_step. Qed.

Lemma preserves_remove_iip g s : preserves P (remove_iip g s).
Proof. unfold remove_iip. repeat preserves_step. Qed.

(** With [start] and [stop], every method. *)
Lemma preserves_perform r :
  (∀ id, r = do_start id → preserves P (start id)) →
  (∀ id, r = do_stop id → preserves P (stop id)) →
  preserves P (perform dedent_strip r).
Proof.
  intros Hstart Hstop.
  destruct r; simpl;
    eauto using preserves_register_component, preserves_add_node,
      preserves_remove_node, preserves_add_edge, preserves_remove_edge,
      preserves_add_iip, preserves_remove_iip.
Qed.

End Preservation.

(** ** The store stays well formed *)

Section Invariant.

Context {executor_class : GraphExecutor}.
Variable dedent_strip : string -> string.

Lemma wf_init : well_formed init.
Proof. split; simpl; intros *; by rewrite ?lookup_empty, ?lookup_nil. Qed.

Lemma wf_frame (w w' : World) :
  _graphs w' = _graphs w → _executors w' = _executors w →
  length (graph_store w') = length (graph_store w) →
  executor_store w' = executor_store w →
  well_formed w → well_formed w'.
Proof.
  intros Hg He Hl Hs [H1 H2 H3].
  split; rewrite ?Hg, ?He, ?Hl, ?Hs; auto.
Qed.

Lemma wf_on_graph g c : preserves well_formed (on_graph g c).
Proof.
  intros w Hw. unfold on_graph.
  destruct (run_graph_call c _); simpl;
    (eapply wf_frame; [..| exact Hw]); simpl; auto using length_insert.
Qed.

Lemma wf_on_executor method e : preserves well_formed (on_executor method e).
Proof.
  intros w [H1 H2 H3]. unfold on_executor.
  destruct (method _ _) as [[st g] err]. simpl.
  split; simpl.
  - intros g' l Hl. rewrite length_insert. eauto.
  - intros g' e' Hl. rewrite length_insert. eauto.
  - intros e' ex Hl. rewrite length_insert.
    destruct (decide (e' = e)) as [-> | Hne].
    + destruct (executor_store w !! e) as [old |] eqn:Hold.
      * rewrite list_lookup_insert_eq in Hl by (by eapply lookup_lt_Some).
        injection Hl as <-. simpl.
        rewrite (list_lookup_total_correct _ _ _ Hold). eauto.
      * rewrite list_insert_ge in Hl by (by apply lookup_ge_None). eauto.
    + rewrite list_lookup_insert_ne in Hl by done. eauto.
Qed.

Lemma wf_set_components f w : well_formed w → well_formed (set_components f w).
Proof. by apply wf_frame. Qed.

Lemma wf_new_graph id : preserves well_formed (new_graph id).
Proof.
  intros w [H1 H2 H3]. split; simpl.
  - intros g' l. rewrite length_app, lookup_insert. simpl.
    case_decide; [intros [= <-]; lia | intros Hl%H1; lia].
  - intros g' e Hl. destruct (H2 _ _ Hl) as [? ?]. split; [done |].
    rewrite lookup_insert_is_Some. destruct (decide (id = g')); auto.
  - intros e ex Hl. rewrite length_app. apply H3 in Hl. lia.
Qed.

Lemma wf_bind_executor id gl st w :
  well_formed w → _graphs w !! id = Some gl →
  well_formed (set_executors <[id := length (executor_store w)]>
                 (set_executor_store
                    (fun s => s ++ [{| ex_graph := gl; ex_state := st |}]) w)).
Proof.
  intros [H1 H2 H3] Hgl. split; simpl.
  - done.
  - intros g' e. rewrite length_app, lookup_insert. simpl.
    case_decide; [intros [= <-]; subst; split; [lia | eauto] |].
    intros Hl. destruct (H2 _ _ Hl). split; [lia | done].
  - intros e ex Hl. apply lookup_app_Some in Hl as [Hl | [_ Hl]]; [eauto |].
    apply list_lookup_singleton_Some in Hl as [_ <-]. simpl. eauto.
Qed.

Lemma wf_delete_executor id w :
  well_formed w → well_formed (set_executors (delete id) w).
Proof.
  intros [H1 H2 H3]. split; simpl; auto.
  intros g e Hl. apply lookup_delete_Some in Hl as [_ Hl]. eauto.
Qed.

Lemma wf_start id : preserves well_formed (start id).
Proof.
  intros w Hw. unfold start, executor_is_running. msimpl.
  destruct (_graphs w !! id) as [gl |] eqn:Hgl; simpl; [| done].
  destruct (_executors w !! id) as [e |] eqn:He; simpl.
  - destruct (is_running _); simpl; [done | by apply wf_on_executor].
  - pose proof (wf_bind_executor id gl (executor_init (graph_store w !!! gl)) w Hw Hgl)
      as Hw'.
    destruct (is_running _); simpl; [done | by apply wf_on_executor].
Qed.

Lemma wf_stop id : preserves well_formed (stop id).
Proof.
  intros w Hw. unfold stop. msimpl.
  destruct (_executors w !! id) as [e |]; simpl; [| done].
  pose proof (wf_on_executor executor_stop e w Hw) as Hw'.
  destruct (on_executor executor_stop e w) as [w1 [[] | x]]; simpl in *; [| done].
  by apply wf_delete_executor.
Qed.

(** Every reachable state is well formed: no lookup in the store falls back
    on a default object, and a graph id with an executor has a graph. *)
Lemma reachable_well_formed w : reachable dedent_strip w → well_formed w.
Proof.
  induction 1 as [| w r _ IH]; [apply wf_init |].
  apply preserves_perform;
    auto using wf_on_graph, wf_new_graph, wf_set_components, wf_start, wf_stop.
Qed.

(** *** No executor before the first start *)

Lemma no_executor_frame graph_id (w w' : World) :
  _executors w' = _executors w → no_executor graph_id w → no_executor graph_id w'.
Proof. unfold no_executor. by intros ->. Qed.

Lemma no_executor_on_graph graph_id g c : preserves (no_executor graph_id) (on_graph g c).
Proof.
  intros w. apply no_executor_frame. unfold on_graph.
  by destruct (run_graph_call c _).
Qed.

Lemma no_executor_on_executor graph_id method e :
  preserves (no_executor graph_id) (on_executor method e).
Proof.
  intros w. apply no_executor_frame. unfold on_executor.
  by destruct (method _ _) as [[st g] err].
Qed.

Lemma no_executor_start graph_id id :
  id ≠ graph_id → preserves (no_executor graph_id) (start id).
Proof.
  intros Hne w Hw. unfold start, executor_is_running. msimpl.
  destruct (_graphs w !! id) as [gl |]; simpl; [| done].
  destruct (_executors w !! id) as [e |]; simpl.
  - destruct (is_running _); simpl; [done | by apply no_executor_on_executor].
  - set (w1 := set_executors _ _).
    assert (Hw1 : no_executor graph_id w1).
    { unfold no_executor. subst w1. simpl. by rewrite lookup_insert_ne. }
    destruct (is_running _); simpl; [done | by apply no_executor_on_executor].
Qed.

Lemma no_executor_stop graph_id id : preserves (no_executor graph_id) (stop id).
Proof.
  intros w Hw. unfold stop. msimpl.
  destruct (_executors w !! id) as [e |]; simpl; [| done].
  pose proof (no_executor_on_executor graph_id executor_stop e w Hw) as Hw'.
  destruct (on_executor executor_stop e w) as [w1 [[] | x]]; simpl in *; [| done].
  unfold no_executor in *. simpl. rewrite lookup_delete_None. by right.
Qed.

Lemma before_first_start_no_executor graph_id w :
  before_first_start dedent_strip graph_id w → _executors w !! graph_id = None.
Proof.
  induction 1 as [| w r _ IH Hr]; [done |].
  apply (preserves_perform dedent_strip (no_executor graph_id)).
  - apply no_executor_on_graph.
  - intros id w'. by apply no_executor_frame.
  - intros f w'. by apply no_executor_frame.
  - intros id ->. apply no_executor_start. congruence.
  - intros id _. apply no_executor_stop.
  - exact IH.
Qed.

End Invariant.

(** ** The sample states are reachable *)

Lemma returns_in `{GraphExecutor} {A} (m : M A) (w : World) (a : A) :
  snd (m w) = Ok a → m w = (fst (m w), Ok a).
Proof. destruct (m w) as [w' r]. simpl. by intros ->. Qed.

Lemma reachable_by `{GraphExecutor} dedent_strip (r : request) (w w' : World) :
  reachable dedent_strip w → fst (perform dedent_strip r w) = w' →
  reachable dedent_strip w'.
Proof. intros Hw <-. by apply reachable_step. Qed.

Lemma wired_world_reachable : reachable id wired_world.
Proof.
  set (w1 := run (register_component id Repeat false) init).
  set (w2 := run (new_graph "main") w1).
  set (w3 := run (add_node "main" "a" "pflow.components/Repeat") w2).
  set (w4 := run (add_node "main" "b" "pflow.components/Repeat") w3).
  apply (reachable_by id (do_add_edge "main" {| node := "a"; port := "out" |}
                            {| node := "b"; port := "in" |}) w4); [| reflexivity].
  apply (reachable_by id (do_add_node "main" "b" "pflow.components/Repeat") w3);
    [| reflexivity].
  apply (reachable_by id (do_add_node "main" "a" "pflow.components/Repeat") w2);
    [| reflexivity].
  apply (reachable_by id (do_new_graph "main") w1); [| reflexivity].
  apply (reachable_by id (do_register_component Repeat false) init); [| reflexivity].
  apply reachable_init.
Qed.

Lemma started_world_reachable : reachable id started_world.
Proof.
  apply (reachable_by id (do_start "main") wired_world); [| reflexivity].
  apply wired_world_reachable.
Qed.

Lemma stopped_world_reachable : reachable id stopped_world.
Proof.
  apply (reachable_by id (do_stop "main") started_world); [| reflexivity].
  apply started_world_reachable.
Qed.

(** ** Execution control *)

Lemma on_executor_tables `{GraphExecutor} method e (w : World) :
  let w' := fst (on_executor method e w) in
  _components w' = _components w ∧ _graphs w' = _graphs w ∧
  _executors w' = _executors w ∧
  length (executor_store w') = length (executor_store w) ∧
  ex_graph <$> executor_store w' !! e = ex_graph <$> executor_store w !! e.
Proof.
  unfold on_executor. destruct (method _ _) as [[st g] err]. simpl.
  repeat split; auto using length_insert.
  destruct (executor_store w !! e) as [old |] eqn:Hold.
  - rewrite list_lookup_insert_eq by (by eapply lookup_lt_Some).
    simpl. by rewrite (list_lookup_total_correct _ _ _ Hold).
  - rewrite list_insert_ge by (by apply lookup_ge_None). by rewrite Hold.
Qed.

(** C1, as stated, fails: in [started_world] the graph ["main"] is running,
    and [start("main")] does not raise a StateError. *)
Lemma start_running_is_not_StateError :
  snd (is_started "main" started_world) = Ok true ∧
  ¬ ∃ msg, snd (start "main" started_world) = Raise (StateError msg).
Proof.
  split; [vm_compute; reflexivity |].
  intros [msg Hmsg]. vm_compute in Hmsg. discriminate.
Qed.

(** C1, amended: in every reachable state, [start(graph_id)] on a running
    graph raises ValueError, and [stop(graph_id)] on a graph id without an
    executor entry raises ValueError; in both cases the runtime and the
    store are exactly as before. *)
Theorem start_stop_raise_ValueError `{GraphExecutor} (dedent_strip : string → string)
    (w : World) (graph_id : string) :
  reachable dedent_strip w →
  (snd (is_started graph_id w) = Ok true →
   start graph_id w
     = (w, Raise (ValueError ("Graph " +:+ graph_id +:+ " is already started")))) ∧
  (_executors w !! graph_id = None →
   stop graph_id w = (w, Raise (ValueError ("Invalid graph: " +:+ graph_id)))).
Proof.
  intros Hw%reachable_well_formed. split.
  - unfold is_started, start, executor_is_running. msimpl.
    destruct (_executors w !! graph_id) as [e |] eqn:He; simpl; [| discriminate].
    intros [= Hrun].
    destruct (wf_executors _ Hw _ _ He) as [_ [gl Hgl]].
    rewrite Hgl. simpl. rewrite He. simpl. by rewrite Hrun.
  - intros He. unfold stop. msimpl. by rewrite He.
Qed.

Lemma start_stop_raise_ValueError_witness :
  start "main" started_world
    = (started_world, Raise (ValueError "Graph main is already started")) ∧
  stop "other" started_world
    = (started_world, Raise (ValueError "Invalid graph: other")).
Proof.
  destruct (start_stop_raise_ValueError id started_world "main"
              started_world_reachable) as [H1 _].
  destruct (start_stop_raise_ValueError id started_world "other"
              started_world_reachable) as [_ H2].
  split; [apply H1 | apply H2]; vm_compute; reflexivity.
Defined.

(** C2: a successful [stop(g)] removes the executor entry of [g] and leaves
    its graph entry; [start(g)] without an executor entry stores a new
    executor object, bound to the graph stored under [g], under [g];
    [start(g)] with an executor entry keeps that entry and creates no
    executor object. *)
Theorem stop_discards_start_creates `{GraphExecutor} (dedent_strip : string → string)
    (w : World) (g : string) :
  reachable dedent_strip w →
  (∀ w1, stop g w = (w1, Ok tt) →
     _executors w1 !! g = None ∧ _graphs w1 !! g = _graphs w !! g ∧
     is_Some (_graphs w1 !! g)) ∧
  (∀ gl, _executors w !! g = None → _graphs w !! g = Some gl →
     let w2 := fst (start g w) in
     let e := length (executor_store w) in
     executor_store w !! e = None ∧
     _executors w2 !! g = Some e ∧
     ex_graph <$> executor_store w2 !! e = Some gl) ∧
  (∀ e, _executors w !! g = Some e →
     let w2 := fst (start g w) in
     _executors w2 !! g = Some e ∧
     length (executor_store w2) = length (executor_store w)).
Proof.
  intros Hw%reachable_well_formed. split; [| split].
  - intros w1. unfold stop. msimpl.
    destruct (_executors w !! g) as [e |] eqn:He; simpl; [| discriminate].
    destruct (wf_executors _ Hw _ _ He) as [_ Hgl].
    pose proof (on_executor_tables executor_stop e w) as (_ & Hg & _).
    destruct (on_executor executor_stop e w) as [w' [[] | x]]; simpl in *;
      [| discriminate].
    intros [= <-]. simpl. rewrite lookup_delete_eq, Hg. done.
  - intros gl He Hgl w2 e. subst w2 e.
    split; [by apply lookup_ge_None |].
    unfold start, executor_is_running, new_executor_object. msimpl.
    rewrite Hgl. simpl. rewrite He. simpl.
    rewrite lookup_total_snoc. simpl.
    set (ex := {| ex_graph := gl; ex_state := executor_init (graph_store w !!! gl) |}).
    set (w1 := set_executors _ _).
    assert (Hex : ex_graph <$> executor_store w1 !! length (executor_store w) = Some gl).
    { subst w1. simpl. by rewrite list_lookup_middle. }
    assert (He1 : _executors w1 !! g = Some (length (executor_store w))).
    { subst w1. simpl. by rewrite lookup_insert_eq. }
    destruct (is_running _); simpl; [done |].
    pose proof (on_executor_tables execute (length (executor_store w)) w1)
      as (_ & _ & Hx & _ & Hb).
    cbv zeta in Hx, Hb. split; [by rewrite Hx | by etransitivity; [exact Hb |]].
  - intros e He w2. subst w2.
    destruct (wf_executors _ Hw _ _ He) as [_ [gl Hgl]].
    unfold start, executor_is_running. msimpl.
    rewrite Hgl. simpl. rewrite He. simpl.
    destruct (is_running _); simpl; [done |].
    pose proof (on_executor_tables execute e w) as (_ & _ & Hx & Hlen & _).
    cbv zeta in Hx, Hlen. by rewrite Hx, Hlen.
Qed.

Lemma stop_discards_start_creates_witness :
  (_executors stopped_world !! "main" = None ∧
   _graphs stopped_world !! "main" = _graphs started_world !! "main" ∧
   is_Some (_graphs stopped_world !! "main")) ∧
  (executor_store stopped_world !! 1 = None ∧
   _executors (fst (start "main" stopped_world)) !! "main" = Some 1 ∧
   ex_graph <$> executor_store (fst (start "main" stopped_world)) !! 1 = Some 0) ∧
  (_executors (fst (start "main" started_world)) !! "main" = Some 0 ∧
   length (executor_store (fst (start "main" started_world))) = 1).
Proof.
  destruct (stop_discards_start_creates id started_world "main"
              started_world_reachable) as (Hstop & _ & Hreuse).
  destruct (stop_discards_start_creates id stopped_world "main"
              stopped_world_reachable) as (_ & Hnew & _).
  split; [| split].
  - apply Hstop. apply (returns_in (stop "main") started_world tt).
    vm_compute. reflexivity.
  - apply (Hnew 0); vm_compute; reflexivity.
  - apply (Hreuse 0). vm_compute. reflexivity.
Defined.

(** C7: [is_started(g)] returns a boolean and leaves the runtime and the
    store as they are; the boolean is False when [g] has no executor entry,
    which is so before the first [start(g)] and after a successful
    [stop(g)], and otherwise it is the executor's [is_running()]. *)
Theorem is_started_query `{GraphExecutor} (dedent_strip : string → string)
    (w : World) (g : string) :
  is_started g w
    = (w, Ok match _executors w !! g with
             | None => false
             | Some e => is_running (ex_state (executor_store w !!! e))
             end) ∧
  (before_first_start dedent_strip g w → is_started g w = (w, Ok false)) ∧
  (∀ w1, stop g w = (w1, Ok tt) → is_started g w1 = (w1, Ok false)).
Proof.
  split; [| split].
  - unfold is_started, executor_is_running. msimpl. by destruct (_executors w !! g).
  - intros He%before_first_start_no_executor.
    unfold is_started. msimpl. by rewrite He.
  - intros w1. unfold stop. msimpl.
    destruct (_executors w !! g) as [e |]; simpl; [| discriminate].
    destruct (on_executor executor_stop e w) as [w' [[] | x]]; simpl; [| discriminate].
    intros [= <-]. unfold is_started. msimpl. by rewrite lookup_delete_eq.
Qed.

Lemma is_started_query_witness :
  is_started "main" registry_world = (registry_world, Ok false) ∧
  is_started "main" stopped_world = (stopped_world, Ok false).
Proof.
  destruct (is_started_query id registry_world "main") as (_ & Hbefore & _).
  destruct (is_started_query id started_world "main") as (_ & _ & Hafter).
  split.
  - apply Hbefore.
    apply (not_started_step id "main" _ (do_register_component Repeat false));
      [apply not_started_init | discriminate].
  - apply Hafter. apply (returns_in (stop "main") started_world tt).
    vm_compute. reflexivity.
Defined.

(** ** The component registry *)



(** ** Graph edits *)

(** C9: [new_graph(graph_id)] always returns; it puts a new, empty graph
    object in the store and binds [graph_id] to it, whatever was bound
    before; the executor dictionary, the executor objects and the registry
    are as before, and so is the answer of [is_started(graph_id)]. *)
Theorem new_graph_rebinds `{GraphExecutor} (w : World) (graph_id : string) :
  let l := length (graph_store w) in
  let w' := fst (new_graph graph_id w) in
  snd (new_graph graph_id w) = Ok tt ∧
  graph_store w !! l = None ∧
  graph_store w' = graph_store w ++ [core.Graph_new graph_id] ∧
  core.components (core.Graph_new graph_id) = [] ∧
  core.connections (core.Graph_new graph_id) = [] ∧
  core.initial_packets (core.Graph_new graph_id) = [] ∧
  _graphs w' = <[graph_id := l]> (_graphs w) ∧
  _executors w' = _executors w ∧
  executor_store w' = executor_store w ∧
  _components w' = _components w ∧
  snd (is_started graph_id w') = snd (is_started graph_id w).
Proof.
  cbv zeta. split; [done |]. split; [by apply lookup_ge_None |].
  repeat (split; [done |]).
  unfold is_started, executor_is_running. msimpl.
  by destruct (_executors w !! graph_id).
Qed.

(** C10: for a graph id without a graph entry, [add_node] and [remove_node]
    bind the id to a new empty graph and make their call on that graph,
    whereas [add_edge], [remove_edge], [add_iip] and [remove_iip] raise
    KeyError and change nothing. *)
Theorem unknown_graph_id `{GraphExecutor} (w : World) (graph_id : string) :
  _graphs w !! graph_id = None →
  let l := length (graph_store w) in
  (∀ node_id component_id,
     let w' := fst (add_node graph_id node_id component_id w) in
     graph_store w !! l = None ∧
     _graphs w' = <[graph_id := l]> (_graphs w) ∧
     match _components w !! component_id with
     | Some options =>
         let component := instantiate (opt_class options) node_id in
         snd (add_node graph_id node_id component_id w) = Ok tt ∧
         history w' = history w ++
           [{| ev_graph := l; ev_before := core.Graph_new graph_id;
               ev_call := call_add_component component |}] ∧
         graph_store w' = graph_store w ++
           [{| core.graph_id := graph_id; core.components := [component];
               core.connections := []; core.initial_packets := [] |}]
     | None =>
         snd (add_node graph_id node_id component_id w) = Raise (KeyError component_id) ∧
         history w' = history w ∧
         graph_store w' = graph_store w ++ [core.Graph_new graph_id]
     end) ∧
  (∀ node_id,
     let w' := fst (remove_node graph_id node_id w) in
     _graphs w' = <[graph_id := l]> (_graphs w) ∧
     history w' = history w ++
       [{| ev_graph := l; ev_before := core.Graph_new graph_id;
           ev_call := call_remove_component node_id |}] ∧
     graph_store w' = graph_store w ++ [core.Graph_new graph_id]) ∧
  (∀ src tgt, add_edge graph_id src tgt w = (w, Raise (KeyError graph_id))) ∧
  (∀ src tgt, remove_edge graph_id src tgt w = (w, Raise (KeyError graph_id))) ∧
  (∀ src data, add_iip graph_id src data w = (w, Raise (KeyError graph_id))) ∧
  (∀ src, remove_iip graph_id src w = (w, Raise (KeyError graph_id))).
Proof.
  intros Hg l. subst l.
  split; [| split; [| split; [| split; [| split]]]].
  - intros node_id component_id. cbv zeta.
    split; [by apply lookup_ge_None |].
    unfold add_node, _create_or_get_graph, new_graph_object. msimpl.
    rewrite Hg. simpl. rewrite lookup_insert_eq. simpl.
    destruct (_components w !! component_id) as [options |]; simpl; [| done].
    unfold on_graph. simpl. rewrite lookup_total_snoc. simpl.
    by rewrite insert_snoc.
  - intros node_id. cbv zeta.
    unfold remove_node, _create_or_get_graph, new_graph_object. msimpl.
    rewrite Hg. simpl. rewrite lookup_insert_eq. simpl.
    unfold on_graph. simpl. rewrite lookup_total_snoc. simpl. done.
  - intros src tgt. unfold add_edge. msimpl. by rewrite Hg.
  - intros src tgt. unfold remove_edge. msimpl. by rewrite Hg.
  - intros src data. unfold add_iip. msimpl. by rewrite Hg.
  - intros src. unfold remove_iip. msimpl. by rewrite Hg.
Qed.

Lemma unknown_graph_id_witness :
  _graphs (fst (add_node "g" "a" "pflow.components/Repeat" registry_world))
    = <[ "g" := 0 ]> (_graphs registry_world) ∧
  _graphs (fst (remove_node "g" "a" registry_world))
    = <[ "g" := 0 ]> (_graphs registry_world) ∧
  add_edge "g" {| node := "a"; port := "out" |} {| node := "b"; port := "in" |}
    registry_world = (registry_world, Raise (KeyError "g")) ∧
  add_iip "g" {| node := "a"; port := "in" |} (PyStr "x") registry_world
    = (registry_world, Raise (KeyError "g")).
Proof.
  assert (Hg : _graphs registry_world !! "g" = None) by (vm_compute; reflexivity).
  destruct (unknown_graph_id registry_world "g" Hg)
    as (Hadd & Hremove & Hedge & _ & Hiip & _).
  split; [| split; [| split]].
  - apply (Hadd "a" "pflow.components/Repeat").
  - apply (Hremove "a").
  - apply Hedge.
  - apply Hiip.
Defined.

(** ** Initial packets and disconnection *)

Lemma on_graph_ok `{GraphExecutor} (g : loc) (c : graph_call) (w : World)
    (after : core.Graph) :
  g < length (graph_store w) →
  run_graph_call c (graph_store w !!! g) = Ok after →
  ∃ w', on_graph g c w = (w', Ok tt) ∧
        graph_store w' !!! g = after ∧
        length (graph_store w') = length (graph_store w) ∧
        history w' = history w ++
          [{| ev_graph := g; ev_before := graph_store w !!! g; ev_call := c |}].
Proof.
  intros Hlt Hrun. unfold on_graph. rewrite Hrun. eexists. split; [reflexivity |].
  simpl. rewrite list_lookup_total_insert_eq by done. by rewrite length_insert.
Qed.

(** [add_iip] returns when the graph, the node and the input port exist. *)
Lemma add_iip_returns `{GraphExecutor} (dedent_strip : string → string)
    (w : World) (graph_id : string) (src : endpoint) (data : pyvalue) graph c q :
  reachable dedent_strip w →
  _graphs w !! graph_id = Some graph →
  find (λ x, bool_decide (core.comp_name x = node src))
       (core.components (graph_store w !!! graph)) = Some c →
  find (λ x, bool_decide (core.port_name x = port src)) (core.inputs c) = Some q →
  snd (add_iip graph_id src data w) = Ok tt.
Proof.
  intros Hw%reachable_well_formed Hgraph Hc Hq.
  pose proof (wf_graphs _ Hw _ _ Hgraph) as Hlt.
  unfold add_iip, _find_component_by_name, port_of, port_is_connected. msimpl.
  rewrite Hgraph. simpl. rewrite Hc. simpl. rewrite Hq. simpl.
  set (p := {| core.owner := core.comp_name c; core.pname := core.port_name q |}).
  destruct (core.is_connected (graph_store w !!! graph) p) eqn:Hconn; simpl.
  - destruct (disconnect_connected_ok _ _ Hconn) as [g1 Hg1].
    destruct (on_graph_ok graph (call_disconnect p) w g1 Hlt Hg1)
      as (w1 & -> & _). done.
  - done.
Qed.

(** C3: when [add_iip] returns, it has called [disconnect] on the target
    port if and only if the port was connected, then [set_initial_packet] in
    a state where the port is not connected; afterwards the port carries the
    packet and no connection. *)
Theorem add_iip_disconnects_then_sets `{GraphExecutor} (dedent_strip : string → string)
    (w w' : World) (graph_id : string) (src : endpoint) (data : pyvalue) :
  reachable dedent_strip w →
  add_iip graph_id src data w = (w', Ok tt) →
  ∃ graph,
    _graphs w !! graph_id = Some graph ∧
    let target_port :=
      {| core.owner := node src; core.dir := core.Input; core.pname := port src |} in
    let before := graph_store w !!! graph in
    let after := graph_store w' !!! graph in
    (∃ between,
       history w' = history w ++
         (if core.is_connected before target_port
          then [{| ev_graph := graph; ev_before := before;
                   ev_call := call_disconnect target_port |}]
          else []) ++
         [{| ev_graph := graph; ev_before := between;
             ev_call := call_set_initial_packet target_port data |}] ∧
       core.is_connected between target_port = false) ∧
    core.initial_packet after target_port = Some data ∧
    core.is_connected after target_port = false.
Proof.
  intros Hw%reachable_well_formed.
  unfold add_iip, _find_component_by_name, port_of, port_is_connected. msimpl.
  destruct (_graphs w !! graph_id) as [graph |] eqn:Hgraph; simpl; [| discriminate].
  pose proof (wf_graphs _ Hw _ _ Hgraph) as Hlt.
  destruct (find _ (core.components _)) as [c |] eqn:Hc; simpl; [| discriminate].
  destruct (find _ (core.inputs c)) as [q |] eqn:Hq; simpl; [| discriminate].
  apply find_name in Hc, Hq. rewrite Hc, Hq.
  set (target_port := {| core.owner := node src; core.pname := port src |}).
  intros Hrun. exists graph. split; [done |]. cbv zeta.
  destruct (core.is_connected (graph_store w !!! graph) target_port) eqn:Hconn;
    simpl in Hrun.
  - destruct (disconnect_connected_ok _ _ Hconn) as [g1 Hg1].
    destruct (on_graph_ok graph (call_disconnect target_port) w g1 Hlt Hg1)
      as (w1 & Hw1 & Hs1 & Hlen1 & Hh1).
    rewrite Hw1 in Hrun.
    destruct (set_initial_packet_spec target_port data g1)
      as (g2 & Hg2 & Hconn2 & Hiip2).
    destruct (on_graph_ok graph (call_set_initial_packet target_port data) w1 g2)
      as (w2 & Hw2 & Hs2 & _ & Hh2); [lia | by rewrite Hs1 |].
    rewrite Hw2 in Hrun. injection Hrun as <-.
    rewrite Hs2. split; [| done].
    exists g1. rewrite Hh2, Hh1, Hs1, <- app_assoc. split; [done |].
    by eapply disconnect_not_connected.
  - destruct (set_initial_packet_spec target_port data (graph_store w !!! graph))
      as (g2 & Hg2 & Hconn2 & Hiip2).
    destruct (on_graph_ok graph (call_set_initial_packet target_port data) w g2 Hlt Hg2)
      as (w2 & Hw2 & Hs2 & _ & Hh2).
    rewrite Hw2 in Hrun. injection Hrun as <-.
    rewrite Hs2. split; [| done].
    exists (graph_store w !!! graph). by rewrite Hh2.
Qed.

Lemma add_iip_disconnects_then_sets_witness :
  let b_in := {| core.owner := "b"; core.dir := core.Input; core.pname := "in" |} in
  let w' := fst (add_iip "main" {| node := "b"; port := "in" |} (PyStr "hello")
                   started_world) in
  core.is_connected (graph_store started_world !!! 0) b_in = true ∧
  ∃ graph,
    _graphs started_world !! "main" = Some graph ∧
    (∃ between,
       history w' = history started_world ++
         (if core.is_connected (graph_store started_world !!! graph) b_in
          then [{| ev_graph := graph; ev_before := graph_store started_world !!! graph;
                   ev_call := call_disconnect b_in |}]
          else []) ++
         [{| ev_graph := graph; ev_before := between;
             ev_call := call_set_initial_packet b_in (PyStr "hello") |}] ∧
       core.is_connected between b_in = false) ∧
    core.initial_packet (graph_store w' !!! graph) b_in = Some (PyStr "hello") ∧
    core.is_connected (graph_store w' !!! graph) b_in = false.
Proof.
  cbv zeta. split; [vm_compute; reflexivity |].
  apply (add_iip_disconnects_then_sets id started_world
           (fst (add_iip "main" {| node := "b"; port := "in" |} (PyStr "hello")
                   started_world))
           "main" {| node := "b"; port := "in" |} (PyStr "hello")
           started_world_reachable).
  apply (returns_in (add_iip "main" {| node := "b"; port := "in" |} (PyStr "hello"))
           started_world tt).
  vm_compute. reflexivity.
Defined.

(** *** Calls on graphs and their guards *)

Section Guarded.

Context {executor_class : GraphExecutor}.

Lemma rg_nothing {A} (m : M A) w : fst (m w) = w → records_guarded m w.
Proof. intros Hm. exists []. by rewrite Hm, app_nil_r. Qed.

Lemma rg_bind_pure {A B} (m : M A) (k : A → M B) w :
  pure m → (∀ a, records_guarded (k a) w) → records_guarded (m ≫= k) w.
Proof.
  intros Hm Hk. specialize (Hm w). unfold records_guarded, mbind, M_bind.
  destruct (m w) as [w1 [a | e]]; simpl in Hm; subst w1.
  - apply Hk.
  - exists []. simpl. by rewrite app_nil_r.
Qed.

Lemma rg_bind {A B} (m : M A) (k : A → M B) w :
  records_guarded m w → (∀ a w1, records_guarded (k a) w1) →
  records_guarded (m ≫= k) w.
Proof.
  intros (evs & Hh & Hg) Hk. unfold records_guarded, mbind, M_bind.
  destruct (m w) as [w1 [a | e]]; simpl in Hh.
  - destruct (Hk a w1) as (evs' & Hh' & Hg').
    exists (evs ++ evs'). rewrite Hh', Hh, app_assoc. split; [done |].
    by apply Forall_app.
  - by exists evs.
Qed.

Lemma rg_gets {A B} (f : World → A) (k : A → M B) w :
  records_guarded (k (f w)) w → records_guarded (gets f ≫= k) w.
Proof. done. Qed.

Lemma rg_on_graph g c w :
  guarded {| ev_graph := g; ev_before := graph_store w !!! g; ev_call := c |} →
  records_guarded (on_graph g c) w.
Proof.
  intros Hg. eexists. split; [| by apply Forall_singleton].
  unfold on_graph. by destruct (run_graph_call c _).
Qed.

Lemma guarded_disconnect graph p w :
  core.is_connected (graph_store w !!! graph) p = true →
  guarded {| ev_graph := graph; ev_before := graph_store w !!! graph;
             ev_call := call_disconnect p |}.
Proof. intros Hc. unfold guarded, core.is_attached. simpl. by rewrite Hc. Qed.

(** The guard of the call sites, [if port.is_connected():
    graph.disconnect(port)], at the end of a method and before the rest of
    one. *)
Lemma rg_guard graph p w :
  records_guarded
    (port_is_connected graph p ≫= λ connected : bool,
       if connected then on_graph graph (call_disconnect p) else mret tt) w.
Proof.
  apply rg_gets.
  destruct (core.is_connected (graph_store w !!! graph) p) eqn:Hc.
  - by apply rg_on_graph, guarded_disconnect.
  - by apply rg_nothing.
Qed.

Lemma rg_guard_then {B} graph p (k : M B) w :
  (∀ w1, records_guarded k w1) →
  records_guarded
    (port_is_connected graph p ≫= λ connected : bool,
       (if connected then on_graph graph (call_disconnect p) else mret tt) ≫= λ _, k) w.
Proof.
  intros Hk. apply rg_gets.
  destruct (core.is_connected (graph_store w !!! graph) p) eqn:Hc.
  - apply rg_bind; [| done]. by apply rg_on_graph, guarded_disconnect.
  - apply rg_bind; [by apply rg_nothing | done].
Qed.

End Guarded.

Ltac rg_lookup :=
  apply rg_bind_pure; [apply pure_gets | intros ?];
  apply rg_bind_pure; [apply pure_getitem | intros ?];
  apply rg_bind_pure; [apply pure_find_component | intros ?];
  apply rg_bind_pure; [apply pure_port_of | intros ?].

(** C4: every [disconnect] that [remove_edge], [add_iip] or [remove_iip]
    calls on a graph is made in a state where [is_connected()] of that port
    is true, so the port has an attachment. *)
Theorem disconnect_only_when_connected `{GraphExecutor} (w : World) (graph_id : string) :
  (∀ src tgt, records_guarded (remove_edge graph_id src tgt) w) ∧
  (∀ src data, records_guarded (add_iip graph_id src data) w) ∧
  (∀ src, records_guarded (remove_iip graph_id src) w).
Proof.
  split; [| split].
  - intros src tgt. unfold remove_edge. rg_lookup.
    apply rg_guard_then. intros w1.
    apply rg_bind_pure; [apply pure_find_component | intros target_component].
    apply rg_bind_pure; [apply pure_port_of | intros target_port].
    apply rg_guard.
  - intros src data. unfold add_iip. rg_lookup.
    apply rg_guard_then. intros w1. by apply rg_on_graph.
  - intros src. unfold remove_iip. rg_lookup.
    apply rg_guard_then. intros w1. by apply rg_on_graph.
Qed.

(** * Further properties of the runtime *)

(** ** What each method leaves alone *)

Lemma on_graph_frame `{GraphExecutor} g c (w : World) :
  let w' := fst (on_graph g c w) in
  _components w' = _components w ∧ _graphs w' = _graphs w ∧
  _executors w' = _executors w ∧ executor_store w' = executor_store w ∧
  length (graph_store w') = length (graph_store w).
Proof.
  unfold on_graph. destruct (run_graph_call c _); simpl;
    repeat split; auto using length_insert.
Qed.

Lemma register_component_frame `{GraphExecutor} dedent_strip c o (w : World) :
  let w' := fst (register_component dedent_strip c o w) in
  _graphs w' = _graphs w ∧ _executors w' = _executors w ∧
  graph_store w' = graph_store w ∧ executor_store w' = executor_store w ∧
  history w' = history w.
Proof.
  unfold register_component, _create_component_spec. msimpl.
  destruct (is_Component c); simpl; [| done]. by destruct (_ && _).
Qed.

Lemma start_frame `{GraphExecutor} g (w : World) :
  let w' := fst (start g w) in
  _components w' = _components w ∧ _graphs w' = _graphs w ∧
  history w' = history w.
Proof.
  unfold start, executor_is_running, on_executor. msimpl.
  destruct (_graphs w !! g) as [gl |]; simpl; [| done].
  destruct (_executors w !! g) as [e |]; simpl;
    (destruct (is_running _); simpl; [done |]);
    by destruct (execute _ _) as [[st g'] err].
Qed.

Lemma stop_frame `{GraphExecutor} g (w : World) :
  let w' := fst (stop g w) in
  _components w' = _components w ∧ _graphs w' = _graphs w ∧
  history w' = history w.
Proof.
  unfold stop, on_executor. msimpl.
  destruct (_executors w !! g) as [e |]; simpl; [| done].
  destruct (executor_stop _ _) as [[st g'] [x |]]; simpl; done.
Qed.

(** The methods that edit a graph keep whatever the calls on graph objects
    and the creation of graphs keep. *)
Lemma preserves_graph_edit `{GraphExecutor} dedent_strip (P : World → Prop) r :
  (∀ g c, preserves P (on_graph g c)) →
  (∀ id, preserves P (new_graph id)) →
  edits_graph r = true → preserves P (perform dedent_strip r).
Proof.
  intros Hon Hnew. destruct r; simpl; try discriminate; intros _;
    auto using preserves_add_node, preserves_remove_node, preserves_add_edge,
      preserves_remove_edge, preserves_add_iip, preserves_remove_iip.
Qed.

(** X1: the methods that edit graphs ([new_graph], [add_node],
    [remove_node], [add_edge], [remove_edge], [add_iip], [remove_iip]) never
    change the registry, the executor dictionary or an executor object,
    whether they return or raise; [register_component] changes nothing but
    the registry; [start] and [stop] never change the registry or the graph
    dictionary. *)
Theorem methods_leave_alone `{GraphExecutor} (dedent_strip : string → string)
    (w : World) (r : request) :
  let w' := fst (perform dedent_strip r w) in
  (edits_graph r = true →
   _components w' = _components w ∧ _executors w' = _executors w ∧
   executor_store w' = executor_store w) ∧
  (∀ c o, r = do_register_component c o →
   _graphs w' = _graphs w ∧ _executors w' = _executors w ∧
   graph_store w' = graph_store w ∧ executor_store w' = executor_store w) ∧
  (∀ g, r = do_start g ∨ r = do_stop g →
   _components w' = _components w ∧ _graphs w' = _graphs w).
Proof.
  cbv zeta. split; [| split].
  - intros Hr.
    apply (preserves_graph_edit dedent_strip
             (λ w', _components w' = _components w ∧ _executors w' = _executors w ∧
                    executor_store w' = executor_store w) r); [| | done | done].
    + intros g c w1 (H1 & H2 & H3).
      destruct (on_graph_frame g c w1) as (F1 & _ & F2 & F3 & _).
      cbv zeta in *. by rewrite F1, F2, F3.
    + by intros id w1 (H1 & H2 & H3).
  - intros c o ->. simpl.
    destruct (register_component_frame dedent_strip c o w) as (F1 & F2 & F3 & F4 & _).
    done.
  - intros g [-> | ->]; simpl.
    + by destruct (start_frame g w) as (F1 & F2 & _).
    + by destruct (stop_frame g w) as (F1 & F2 & _).
Qed.

Lemma methods_leave_alone_witness :
  (_components (fst (add_iip "main" {| node := "b"; port := "in" |} (PyStr "x")
                       started_world)) = _components started_world ∧
   _executors (fst (add_iip "main" {| node := "b"; port := "in" |} (PyStr "x")
                      started_world)) = _executors started_world ∧
   executor_store (fst (add_iip "main" {| node := "b"; port := "in" |} (PyStr "x")
                          started_world)) = executor_store started_world) ∧
  (_components (fst (stop "main" started_world)) = _components started_world ∧
   _graphs (fst (stop "main" started_world)) = _graphs started_world).
Proof.
  destruct (methods_leave_alone id started_world
              (do_add_iip "main" {| node := "b"; port := "in" |} (PyStr "x")))
    as (Hedit & _ & _).
  destruct (methods_leave_alone id started_world (do_stop "main"))
    as (_ & _ & Hstop).
  split.
  - apply Hedit. reflexivity.
  - apply (Hstop "main"). right. reflexivity.
Defined.

(** ** Graph ids and the objects bound to them *)

Lemma preserves_add_node_from `{GraphExecutor} (P : World → Prop) g n c :
  (∀ l call, preserves P (on_graph l call)) →
  preserves P (_create_or_get_graph g) →
  preserves P (add_node g n c).
Proof.
  intros Hon Hcog. unfold add_node. apply preserves_bind; [done |].
  intros ?. repeat preserves_step.
Qed.

Lemma preserves_remove_node_from `{GraphExecutor} (P : World → Prop) g n :
  (∀ l call, preserves P (on_graph l call)) →
  preserves P (_create_or_get_graph g) →
  preserves P (remove_node g n).
Proof.
  intros Hon Hcog. unfold remove_node. apply preserves_bind; [done |].
  intros ?. repeat preserves_step.
Qed.

Lemma create_or_get_graph_run `{GraphExecutor} id (w : World) :
  _create_or_get_graph id w =
    match _graphs w !! id with
    | Some l => (w, Ok l)
    | None =>
        (set_graphs <[id := length (graph_store w)]>
           (set_graph_store (λ s, s ++ [core.Graph_new id]) w),
         Ok (length (graph_store w)))
    end.
Proof.
  unfold _create_or_get_graph, new_graph_object. msimpl.
  destruct (_graphs w !! id) as [l |] eqn:Hl; simpl.
  - by rewrite Hl.
  - by rewrite lookup_insert_eq.
Qed.

(** A property of the graph dictionary that the binding of [id] does not
    touch is kept by every method that does not bind [id]. *)
Lemma preserves_graphs_lookup `{GraphExecutor} dedent_strip (Q : option loc → Prop)
    (g : string) (r : request) :
  (∀ id l (m : gmap string loc),
     (r = do_new_graph id ∨ (m !! id = None ∧ creates_graph id r = true)) →
     Q (m !! g) → Q (<[id := l]> m !! g)) →
  preserves (λ w, Q (_graphs w !! g)) (perform dedent_strip r).
Proof.
  intros HQ.
  assert (Hon : ∀ l call, preserves (λ w, Q (_graphs w !! g)) (on_graph l call)).
  { intros l call w Hw. destruct (on_graph_frame l call w) as (_ & F & _).
    cbv zeta in F. by rewrite F. }
  assert (Hcog : ∀ id, creates_graph id r = true →
                       preserves (λ w, Q (_graphs w !! g)) (_create_or_get_graph id)).
  { intros id Hid w Hw. rewrite create_or_get_graph_run.
    destruct (_graphs w !! id) eqn:Hl; simpl; [done |]. apply HQ; auto. }
  destruct r; simpl.
  - intros w Hw.
    destruct (register_component_frame dedent_strip component_class overwrite w)
      as (F & _). cbv zeta in F. by rewrite F.
  - intros w Hw. destruct (start_frame graph_id w) as (_ & F & _).
    cbv zeta in F. by rewrite F.
  - intros w Hw. destruct (stop_frame graph_id w) as (_ & F & _).
    cbv zeta in F. by rewrite F.
  - intros w Hw. simpl. apply HQ; auto.
  - apply preserves_add_node_from; [done |]. apply Hcog. simpl.
    by apply bool_decide_eq_true.
  - apply preserves_remove_node_from; [done |]. apply Hcog. simpl.
    by apply bool_decide_eq_true.
  - by apply preserves_add_edge.
  - by apply preserves_remove_edge.
  - by apply preserves_add_iip.
  - by apply preserves_remove_iip.
Qed.

(** X2: no method ever removes a graph id from [self._graphs]; the object
    bound to a graph id changes only through [new_graph] of that id; and an
    unbound graph id becomes bound only through [new_graph], [add_node] or
    [remove_node] of that id. *)
Theorem graph_bindings `{GraphExecutor} (dedent_strip : string → string)
    (w : World) (r : request) (g : string) :
  let w' := fst (perform dedent_strip r w) in
  (is_Some (_graphs w !! g) → is_Some (_graphs w' !! g)) ∧
  (∀ l, _graphs w !! g = Some l → r ≠ do_new_graph g → _graphs w' !! g = Some l) ∧
  (_graphs w !! g = None → creates_graph g r = false → _graphs w' !! g = None).
Proof.
  cbv zeta. split; [| split].
  - apply (preserves_graphs_lookup dedent_strip is_Some g r).
    intros id l m _ Hm. rewrite lookup_insert_is_Some.
    destruct (decide (id = g)); auto.
  - intros l Hl Hr. revert Hl.
    apply (preserves_graphs_lookup dedent_strip (λ o, o = Some l) g r).
    intros id l' m Hid Hm. destruct (decide (id = g)) as [-> | Hne].
    + destruct Hid as [-> | [Hnone _]]; [done | congruence].
    + by rewrite lookup_insert_ne.
  - intros Hnone Hr. revert Hnone.
    apply (preserves_graphs_lookup dedent_strip (λ o, o = None) g r).
    intros id l m Hid Hm. destruct (decide (id = g)) as [-> | Hne].
    + destruct Hid as [-> | [_ Hc]]; [| congruence].
      simpl in Hr. by rewrite bool_decide_eq_true_2 in Hr.
    + by rewrite lookup_insert_ne.
Qed.

Lemma graph_bindings_witness :
  _graphs (fst (add_node "main" "c" "nowhere/Missing" started_world)) !! "main" = Some 0 ∧
  _graphs (fst (add_edge "aux" {| node := "a"; port := "out" |}
                         {| node := "b"; port := "in" |} started_world)) !! "aux" = None.
Proof.
  destruct (graph_bindings id started_world
              (do_add_node "main" "c" "nowhere/Missing") "main") as (_ & Hkeep & _).
  destruct (graph_bindings id started_world
              (do_add_edge "aux" {| node := "a"; port := "out" |}
                           {| node := "b"; port := "in" |}) "aux") as (_ & _ & Hnone).
  split.
  - apply (Hkeep 0); [vm_compute; reflexivity | discriminate].
  - apply Hnone; vm_compute; reflexivity.
Defined.

(** ** Executors and the graphs they drive *)

Lemma on_executor_lookup `{GraphExecutor} method e (w : World) e' ex :
  executor_store w !! e' = Some ex →
  ∃ ex', executor_store (fst (on_executor method e w)) !! e' = Some ex' ∧
         ex_graph ex' = ex_graph ex.
Proof.
  intros Hex. unfold on_executor. destruct (method _ _) as [[st g] err]. simpl.
  destruct (decide (e' = e)) as [-> | Hne].
  - rewrite list_lookup_insert_eq by (by eapply lookup_lt_Some).
    eexists. split; [done |]. simpl.
    by rewrite (list_lookup_total_correct _ _ _ Hex).
  - rewrite list_lookup_insert_ne by done. eauto.
Qed.

Lemma owned_on_executor `{GraphExecutor} method e :
  preserves graphs_owned (on_executor method e).
Proof.
  intros w (owners & Hlen & Hg & He). exists owners.
  destruct (on_executor_tables method e w) as (_ & Fg & Fe & _).
  cbv zeta in Fg, Fe. split; [| split].
  - rewrite Hlen. unfold on_executor. destruct (method _ _) as [[st g] err].
    simpl. by rewrite length_insert.
  - intros g l. rewrite Fg. apply Hg.
  - intros g e'. rewrite Fe. intros (ex & Hex & Hown)%He.
    destruct (on_executor_lookup method e w e' ex Hex) as (ex' & Hex' & Heq).
    exists ex'. by rewrite Heq.
Qed.

Lemma owned_on_graph `{GraphExecutor} g c : preserves graphs_owned (on_graph g c).
Proof.
  intros w (owners & Hlen & Hg & He). exists owners.
  destruct (on_graph_frame g c w) as (_ & Fg & Fe & Fs & Fl).
  cbv zeta in Fg, Fe, Fs, Fl. split; [| split].
  - by rewrite Fl.
  - by rewrite Fg.
  - by rewrite Fe, Fs.
Qed.

Lemma owned_new_graph `{GraphExecutor} id : preserves graphs_owned (new_graph id).
Proof.
  intros w (owners & Hlen & Hg & He). exists (owners ++ [id]).
  split; [| split]; simpl.
  - rewrite !length_app. simpl. lia.
  - intros g l. rewrite lookup_insert. case_decide as Hid.
    + intros [= <-]. subst g. rewrite <- Hlen. by apply list_lookup_middle.
    + intros Hl%Hg. apply lookup_app_l_Some. done.
  - intros g e (ex & Hex & Hown)%He. exists ex. split; [done |].
    by apply lookup_app_l_Some.
Qed.

Lemma owned_start `{GraphExecutor} id : preserves graphs_owned (start id).
Proof.
  intros w Hw. unfold start, executor_is_running. msimpl.
  destruct (_graphs w !! id) as [gl |] eqn:Hgl; simpl; [| done].
  destruct (_executors w !! id) as [e |] eqn:He; simpl.
  - destruct (is_running _); simpl; [done | by apply owned_on_executor].
  - set (w1 := set_executors _ _).
    assert (Hw1 : graphs_owned w1).
    { destruct Hw as (owners & Hlen & Hg & Hx). exists owners.
      subst w1. split; [| split]; simpl; [done | done |].
      intros g e. rewrite lookup_insert. case_decide as Hid.
      - intros [= <-]. subst g. eexists. split; [by apply list_lookup_middle |].
        simpl. by apply Hg.
      - intros (ex & Hex & Hown)%Hx. exists ex. split; [| done].
        by apply lookup_app_l_Some. }
    destruct (is_running _); simpl; [done | by apply owned_on_executor].
Qed.

Lemma owned_stop `{GraphExecutor} id : preserves graphs_owned (stop id).
Proof.
  intros w Hw. unfold stop. msimpl.
  destruct (_executors w !! id) as [e |]; simpl; [| done].
  pose proof (owned_on_executor executor_stop e w Hw) as Hw'.
  destruct (on_executor executor_stop e w) as [w1 [[] | x]]; simpl in *; [| done].
  destruct Hw' as (owners & Hlen & Hg & Hx). exists owners.
  split; [| split]; simpl; [done | done |].
  intros g e' [_ Hl]%lookup_delete_Some. by apply Hx.
Qed.

Lemma reachable_graphs_owned `{GraphExecutor} dedent_strip (w : World) :
  reachable dedent_strip w → graphs_owned w.
Proof.
  induction 1 as [| w r _ IH].
  - exists []. split; [done |].
    split; intros ? ? Hl; simpl in Hl; by rewrite lookup_empty in Hl.
  - apply preserves_perform;
      auto using owned_on_graph, owned_new_graph, owned_start, owned_stop.
Qed.

(** X3: in every reachable state, two different graph ids are bound to two
    different graph objects, their executors are two different objects that
    drive different graph objects, and the executor of one never drives the
    graph object bound to the other. *)
Theorem graphs_and_executors_not_shared `{GraphExecutor}
    (dedent_strip : string → string) (w : World) (g1 g2 : string) :
  reachable dedent_strip w → g1 ≠ g2 →
  (∀ l1 l2, _graphs w !! g1 = Some l1 → _graphs w !! g2 = Some l2 → l1 ≠ l2) ∧
  (∀ e1 e2, _executors w !! g1 = Some e1 → _executors w !! g2 = Some e2 →
     e1 ≠ e2 ∧
     ex_graph (executor_store w !!! e1) ≠ ex_graph (executor_store w !!! e2)) ∧
  (∀ e1 l2, _executors w !! g1 = Some e1 → _graphs w !! g2 = Some l2 →
     ex_graph (executor_store w !!! e1) ≠ l2).
Proof.
  intros (owners & Hlen & Hg & Hx)%reachable_graphs_owned Hne.
  split; [| split].
  - intros l1 l2 H1%Hg H2%Hg ->. congruence.
  - intros e1 e2 (ex1 & Hex1 & Hown1)%Hx (ex2 & Hex2 & Hown2)%Hx.
    rewrite (list_lookup_total_correct _ _ _ Hex1).
    rewrite (list_lookup_total_correct _ _ _ Hex2).
    split; [intros -> | intros Heq]; congruence.
  - intros e1 l2 (ex1 & Hex1 & Hown1)%Hx H2%Hg.
    rewrite (list_lookup_total_correct _ _ _ Hex1). congruence.
Qed.

Lemma two_graph_world_reachable : reachable id two_graph_world.
Proof.
  set (w1 := run (new_graph "aux") started_world).
  apply (reachable_by id (do_start "aux") w1); [| reflexivity].
  apply (reachable_by id (do_new_graph "aux") started_world); [| reflexivity].
  apply started_world_reachable.
Qed.

Lemma graphs_and_executors_not_shared_witness :
  (0 ≠ 1) ∧
  (0 ≠ 1 ∧
   ex_graph (executor_store two_graph_world !!! 0)
     ≠ ex_graph (executor_store two_graph_world !!! 1)) ∧
  ex_graph (executor_store two_graph_world !!! 0) ≠ 1.
Proof.
  assert (Hne : "main" ≠ "aux") by discriminate.
  destruct (graphs_and_executors_not_shared id two_graph_world "main" "aux"
              two_graph_world_reachable Hne) as (Hg & He & Hx).
  split; [| split].
  - apply Hg; vm_compute; reflexivity.
  - apply He; vm_compute; reflexivity.
  - apply Hx; vm_compute; reflexivity.
Defined.

(** X4: when a graph id has an executor, [new_graph] of that id followed by
    [start] of that id creates no executor: the graph id is bound to the new
    graph object, while the executor registered for it is the old one, which
    still drives the graph object it was constructed with. *)
Theorem new_graph_leaves_executor_on_old_graph `{GraphExecutor}
    (dedent_strip : string → string) (w : World) (g : string) (e : loc) :
  reachable dedent_strip w →
  _executors w !! g = Some e →
  let w2 := fst (start g (fst (new_graph g w))) in
  ∃ driven,
    ex_graph <$> executor_store w !! e = Some driven ∧
    _graphs w2 !! g = Some (length (graph_store w)) ∧
    driven ≠ length (graph_store w) ∧
    _executors w2 !! g = Some e ∧
    ex_graph <$> executor_store w2 !! e = Some driven ∧
    length (executor_store w2) = length (executor_store w).
Proof.
  intros Hw%reachable_well_formed He. cbv zeta.
  destruct (wf_executors _ Hw _ _ He) as [Hlt _].
  destruct (executor_store w !! e) as [ex |] eqn:Hex;
    [| apply lookup_ge_None in Hex; lia].
  pose proof (wf_bound _ Hw _ _ Hex) as Hb.
  exists (ex_graph ex). split; [done |].
  set (w1 := fst (new_graph g w)).
  assert (Hg1 : _graphs w1 !! g = Some (length (graph_store w) : loc))
    by (subst w1; simpl; by rewrite lookup_insert_eq).
  assert (He1 : _executors w1 !! g = Some e) by done.
  assert (Hex1 : executor_store w1 !! e = Some ex) by done.
  assert (Hl1 : length (executor_store w1) = length (executor_store w)) by done.
  destruct (start_frame g w1) as (_ & Fg & _). cbv zeta in Fg.
  rewrite Fg. split; [done |]. split; [lia |].
  rewrite <- Hl1. clearbody w1.
  unfold start, executor_is_running. msimpl.
  rewrite Hg1. simpl. rewrite He1. simpl.
  destruct (is_running _); simpl.
  - by rewrite He1, Hex1.
  - destruct (on_executor_tables execute e w1) as (_ & _ & Fe & Fl & Fb).
    cbv zeta in Fe, Fl, Fb.
    split; [by rewrite Fe |]. split; [| done].
    etransitivity; [exact Fb |]. by rewrite Hex1.
Qed.

Lemma new_graph_leaves_executor_on_old_graph_witness :
  ∃ driven,
    ex_graph <$> executor_store started_world !! 0 = Some driven ∧
    _graphs (fst (start "main" (fst (new_graph "main" started_world)))) !! "main"
      = Some (length (graph_store started_world)) ∧
    driven ≠ length (graph_store started_world) ∧
    _executors (fst (start "main" (fst (new_graph "main" started_world)))) !! "main"
      = Some 0 ∧
    ex_graph <$>
      executor_store (fst (start "main" (fst (new_graph "main" started_world)))) !! 0
      = Some driven ∧
    length (executor_store (fst (start "main" (fst (new_graph "main" started_world)))))
      = length (executor_store started_world).
Proof.
  apply (new_graph_leaves_executor_on_old_graph id started_world "main" 0
           started_world_reachable).
  vm_compute. reflexivity.
Defined.

(** ** Failures of [start] and [stop] *)

(** X5: [start] of a graph id without a graph raises KeyError and changes
    nothing, so no executor is created for it; and when [execute()] of a
    newly created executor raises, [start] raises the same exception with
    the new executor left registered under the graph id. *)
Theorem start_failures `{GraphExecutor} (w : World) (g : string) :
  (_graphs w !! g = None → start g w = (w, Raise (KeyError g))) ∧
  (∀ gl x,
     _graphs w !! g = Some gl → _executors w !! g = None →
     let graph := graph_store w !!! gl in
     is_running (executor_init graph) = false →
     snd (execute (executor_init graph) graph) = Some x →
     snd (start g w) = Raise x ∧
     _executors (fst (start g w)) !! g = Some (length (executor_store w))).
Proof.
  split.
  - intros Hg. unfold start. msimpl. by rewrite Hg.
  - intros gl x Hg He graph Hrun Hexec.
    unfold start, executor_is_running, new_executor_object, on_executor. msimpl.
    rewrite Hg. simpl. rewrite He. simpl. rewrite lookup_total_snoc. simpl.
    fold graph. rewrite Hrun. simpl. rewrite lookup_total_snoc. simpl.
    fold graph. destruct (execute (executor_init graph) graph) as [[st g'] err].
    simpl in *. subst err. by rewrite lookup_insert_eq.
Qed.

(** X6: when [executor.stop()] raises, [stop] raises the same exception and
    the executor stays registered (the [del] is not reached): the executor
    dictionary, the graph dictionary and the registry are as before. *)
Theorem stop_failure_keeps_executor `{GraphExecutor} (w : World) (g : string)
    (e : loc) (x : exn) :
  _executors w !! g = Some e →
  let ex := executor_store w !!! e in
  snd (executor_stop (ex_state ex) (graph_store w !!! ex_graph ex)) = Some x →
  snd (stop g w) = Raise x ∧
  _executors (fst (stop g w)) = _executors w ∧
  _graphs (fst (stop g w)) = _graphs w ∧
  _components (fst (stop g w)) = _components w.
Proof.
  intros He ex Hstop. unfold stop, on_executor. msimpl. rewrite He. simpl.
  fold ex. destruct (executor_stop _ _) as [[st g'] err]. simpl in *.
  by subst err.
Qed.

Lemma start_failures_witness :
  start "nowhere" started_world = (started_world, Raise (KeyError "nowhere")) ∧
  snd (@start BrokenExecutor "main" broken_world) = Raise (ValueError "cannot execute") ∧
  @_executors BrokenExecutor (fst (@start BrokenExecutor "main" broken_world)) !! "main"
    = Some 0.
Proof.
  destruct (start_failures started_world "nowhere") as (Hkey & _).
  destruct (@start_failures BrokenExecutor broken_world "main") as (_ & Hexec).
  split.
  - apply Hkey. vm_compute. reflexivity.
  - apply (Hexec 0 (ValueError "cannot execute")); reflexivity.
Defined.

Lemma stop_failure_keeps_executor_witness :
  snd (@stop BrokenExecutor "main" broken_started_world)
    = Raise (ValueError "cannot stop") ∧
  @_executors BrokenExecutor (fst (@stop BrokenExecutor "main" broken_started_world))
    = @_executors BrokenExecutor broken_started_world ∧
  @_graphs BrokenExecutor (fst (@stop BrokenExecutor "main" broken_started_world))
    = @_graphs BrokenExecutor broken_started_world ∧
  @_components BrokenExecutor (fst (@stop BrokenExecutor "main" broken_started_world))
    = @_components BrokenExecutor broken_started_world.
Proof.
  apply (@stop_failure_keeps_executor BrokenExecutor broken_started_world "main" 0
           (ValueError "cannot stop")); reflexivity.
Defined.

(** ** Lookups and calls of the graph edits *)

Lemma disconnect_components p g g' :
  core.disconnect p g = Ok g' → core.components g' = core.components g.
Proof.
  unfold core.disconnect. destruct (core.is_attached g p); [| discriminate].
  by intros [= <-].
Qed.

(** X7: on a known graph, [add_edge] looks up the source node, the source
    port, the target node and the target port in that order; the first
    lookup that fails raises (AttributeError for a node that does not exist,
    since [_find_component_by_name] returns [None]; KeyError for a port)
    and nothing has changed; when all four succeed it makes exactly one call,
    [graph.connect], whose outcome is the outcome of [add_edge]. *)
Theorem add_edge_lookups `{GraphExecutor} (w : World) (graph_id : string)
    (src tgt : endpoint) (graph : loc) :
  _graphs w !! graph_id = Some graph →
  let g := graph_store w !!! graph in
  let by_name n := find (λ c, bool_decide (core.comp_name c = n)) (core.components g) in
  let by_port n := find (λ q, bool_decide (core.port_name q = n)) in
  (by_name (node src) = None →
   add_edge graph_id src tgt w
     = (w, Raise (AttributeError "'NoneType' object has no attribute 'outputs'"))) ∧
  (∀ c, by_name (node src) = Some c → by_port (port src) (core.outputs c) = None →
   add_edge graph_id src tgt w = (w, Raise (KeyError (port src)))) ∧
  (∀ c q, by_name (node src) = Some c →
   by_port (port src) (core.outputs c) = Some q →
   by_name (node tgt) = None →
   add_edge graph_id src tgt w
     = (w, Raise (AttributeError "'NoneType' object has no attribute 'inputs'"))) ∧
  (∀ c q d, by_name (node src) = Some c →
   by_port (port src) (core.outputs c) = Some q →
   by_name (node tgt) = Some d → by_port (port tgt) (core.inputs d) = None →
   add_edge graph_id src tgt w = (w, Raise (KeyError (port tgt)))) ∧
  (∀ c q d q', by_name (node src) = Some c →
   by_port (port src) (core.outputs c) = Some q →
   by_name (node tgt) = Some d → by_port (port tgt) (core.inputs d) = Some q' →
   let source_port :=
     {| core.owner := node src; core.dir := core.Output; core.pname := port src |} in
   let target_port :=
     {| core.owner := node tgt; core.dir := core.Input; core.pname := port tgt |} in
   history (fst (add_edge graph_id src tgt w)) = history w ++
     [{| ev_graph := graph; ev_before := g;
         ev_call := call_connect source_port target_port |}] ∧
   snd (add_edge graph_id src tgt w)
     = match core.connect source_port target_port g with
       | Ok _ => Ok tt
       | Raise e => Raise e
       end).
Proof.
  intros Hg g by_name by_port. subst g by_name by_port.
  unfold add_edge, _find_component_by_name, port_of. msimpl. rewrite Hg. simpl.
  split; [| split; [| split; [| split]]].
  - by intros ->.
  - intros c -> Hq. simpl. by rewrite Hq.
  - intros c q -> Hq Hd. simpl. rewrite Hq. simpl. by rewrite Hd.
  - intros c q d -> Hq Hd Hq'. simpl. rewrite Hq. simpl. rewrite Hd. simpl.
    by rewrite Hq'.
  - intros c q d q' Hc Hq Hd Hq'. rewrite Hc. simpl. rewrite Hq. simpl.
    rewrite Hd. simpl. rewrite Hq'. simpl.
    apply find_name in Hc, Hq, Hd, Hq'. rewrite Hc, Hq, Hd, Hq'.
    unfold on_graph. simpl. by destruct (core.connect _ _ _).
Qed.

Lemma add_edge_lookups_witness :
  add_edge "main" {| node := "x"; port := "out" |} {| node := "y"; port := "in" |}
    started_world
    = (started_world,
       Raise (AttributeError "'NoneType' object has no attribute 'outputs'")) ∧
  add_edge "main" {| node := "a"; port := "in" |} {| node := "b"; port := "in" |}
    started_world = (started_world, Raise (KeyError "in")) ∧
  add_edge "main" {| node := "a"; port := "out" |} {| node := "y"; port := "in" |}
    started_world
    = (started_world,
       Raise (AttributeError "'NoneType' object has no attribute 'inputs'")) ∧
  add_edge "main" {| node := "a"; port := "out" |} {| node := "b"; port := "out" |}
    started_world = (started_world, Raise (KeyError "out")) ∧
  snd (add_edge "main" {| node := "a"; port := "out" |} {| node := "b"; port := "count" |}
         started_world) = Ok tt.
Proof.
  assert (Hg : _graphs started_world !! "main" = Some 0) by (vm_compute; reflexivity).
  destruct (add_edge_lookups started_world "main" {| node := "x"; port := "out" |}
              {| node := "y"; port := "in" |} 0 Hg) as (H1 & _).
  destruct (add_edge_lookups started_world "main" {| node := "a"; port := "in" |}
              {| node := "b"; port := "in" |} 0 Hg) as (_ & H2 & _).
  destruct (add_edge_lookups started_world "main" {| node := "a"; port := "out" |}
              {| node := "y"; port := "in" |} 0 Hg) as (_ & _ & H3 & _).
  destruct (add_edge_lookups started_world "main" {| node := "a"; port := "out" |}
              {| node := "b"; port := "out" |} 0 Hg) as (_ & _ & _ & H4 & _).
  destruct (add_edge_lookups started_world "main" {| node := "a"; port := "out" |}
              {| node := "b"; port := "count" |} 0 Hg) as (_ & _ & _ & _ & H5).
  split; [| split; [| split; [| split]]].
  - apply H1. vm_compute. reflexivity.
  - apply (H2 (instantiate Repeat "a")); vm_compute; reflexivity.
  - apply (H3 (instantiate Repeat "a") out_port); vm_compute; reflexivity.
  - apply (H4 (instantiate Repeat "a") out_port (instantiate Repeat "b"));
      vm_compute; reflexivity.
  - etransitivity;
      [apply (H5 (instantiate Repeat "a") out_port (instantiate Repeat "b") count_port);
       vm_compute; reflexivity |].
    vm_compute. reflexivity.
Defined.

(** X8: [remove_edge] is not atomic: when the source port is connected and
    the target node does not exist, it has disconnected the source port
    before it raises AttributeError for the target; the graph object no
    longer has a connection on the source port. *)
Theorem remove_edge_partial `{GraphExecutor} (dedent_strip : string → string)
    (w : World) (graph_id : string) (src tgt : endpoint) (graph : loc) c q :
  reachable dedent_strip w →
  _graphs w !! graph_id = Some graph →
  let g := graph_store w !!! graph in
  let source_port :=
    {| core.owner := node src; core.dir := core.Output; core.pname := port src |} in
  find (λ c, bool_decide (core.comp_name c = node src)) (core.components g) = Some c →
  find (λ q, bool_decide (core.port_name q = port src)) (core.outputs c) = Some q →
  core.is_connected g source_port = true →
  find (λ c, bool_decide (core.comp_name c = node tgt)) (core.components g) = None →
  let w' := fst (remove_edge graph_id src tgt w) in
  snd (remove_edge graph_id src tgt w)
    = Raise (AttributeError "'NoneType' object has no attribute 'inputs'") ∧
  history w' = history w ++
    [{| ev_graph := graph; ev_before := g; ev_call := call_disconnect source_port |}] ∧
  core.is_connected (graph_store w' !!! graph) source_port = false.
Proof.
  intros Hw%reachable_well_formed Hg g source_port Hc Hq Hconn Hd. subst g.
  pose proof (wf_graphs _ Hw _ _ Hg) as Hlt.
  unfold remove_edge, _find_component_by_name, port_of, port_is_connected. msimpl.
  rewrite Hg. simpl. rewrite Hc. simpl. rewrite Hq. simpl.
  apply find_name in Hc, Hq. rewrite Hc, Hq. fold source_port. rewrite Hconn.
  destruct (disconnect_connected_ok _ _ Hconn) as [g1 Hg1].
  destruct (on_graph_ok graph (call_disconnect source_port) w g1 Hlt Hg1)
    as (w1 & Hw1 & Hs1 & _ & Hh1).
  rewrite Hw1. simpl. rewrite Hs1.
  rewrite (disconnect_components _ _ _ Hg1), Hd. simpl.
  rewrite Hs1. split; [done |]. split; [done |].
  by eapply disconnect_not_connected.
Qed.

Lemma remove_edge_partial_witness :
  let a_out := {| core.owner := "a"; core.dir := core.Output; core.pname := "out" |} in
  let w' := fst (remove_edge "main" {| node := "a"; port := "out" |}
                   {| node := "y"; port := "in" |} started_world) in
  snd (remove_edge "main" {| node := "a"; port := "out" |}
         {| node := "y"; port := "in" |} started_world)
    = Raise (AttributeError "'NoneType' object has no attribute 'inputs'") ∧
  history w' = history started_world ++
    [{| ev_graph := 0; ev_before := graph_store started_world !!! 0;
        ev_call := call_disconnect a_out |}] ∧
  core.is_connected (graph_store w' !!! 0) a_out = false.
Proof.
  cbv zeta.
  apply (remove_edge_partial id started_world "main" {| node := "a"; port := "out" |}
           {| node := "y"; port := "in" |} 0 (instantiate Repeat "a") out_port
           started_world_reachable);
    vm_compute; reflexivity.
Defined.

(** X9: when [remove_iip] returns, it has called [disconnect] on the port if
    and only if the port had a live connection, and then
    [unset_initial_packet]; afterwards the port has neither an initial
    packet nor a connection. *)
Theorem remove_iip_detaches `{GraphExecutor} (dedent_strip : string → string)
    (w w' : World) (graph_id : string) (src : endpoint) :
  reachable dedent_strip w →
  remove_iip graph_id src w = (w', Ok tt) →
  ∃ graph,
    _graphs w !! graph_id = Some graph ∧
    let target_port :=
      {| core.owner := node src; core.dir := core.Input; core.pname := port src |} in
    let before := graph_store w !!! graph in
    (∃ between,
       history w' = history w ++
         (if core.is_connected before target_port
          then [{| ev_graph := graph; ev_before := before;
                   ev_call := call_disconnect target_port |}]
          else []) ++
         [{| ev_graph := graph; ev_before := between;
             ev_call := call_unset_initial_packet target_port |}]) ∧
    core.is_attached (graph_store w' !!! graph) target_port = false.
Proof.
  intros Hw%reachable_well_formed.
  unfold remove_iip, _find_component_by_name, port_of, port_is_connected. msimpl.
  destruct (_graphs w !! graph_id) as [graph |] eqn:Hgraph; simpl; [| discriminate].
  pose proof (wf_graphs _ Hw _ _ Hgraph) as Hlt.
  destruct (find _ (core.components _)) as [c |] eqn:Hc; simpl; [| discriminate].
  destruct (find _ (core.inputs c)) as [q |] eqn:Hq; simpl; [| discriminate].
  apply find_name in Hc, Hq. rewrite Hc, Hq.
  set (target_port := {| core.owner := node src; core.pname := port src |}).
  intros Hrun. exists graph. split; [done |]. cbv zeta.
  assert (Hunset : ∀ g, core.is_connected g target_port = false →
            ∃ g', core.unset_initial_packet target_port g = Ok g' ∧
                  core.is_attached g' target_port = false).
  { intros g Hconn. eexists. split; [reflexivity |].
    unfold core.is_attached, core.has_initial_packet, core.is_connected in *.
    simpl. by rewrite Hconn, existsb_filter_neg. }
  destruct (core.is_connected (graph_store w !!! graph) target_port) eqn:Hconn;
    simpl in Hrun.
  - destruct (disconnect_connected_ok _ _ Hconn) as [g1 Hg1].
    destruct (on_graph_ok graph (call_disconnect target_port) w g1 Hlt Hg1)
      as (w1 & Hw1 & Hs1 & Hlen1 & Hh1).
    rewrite Hw1 in Hrun.
    destruct (Hunset g1 (disconnect_not_connected _ _ _ Hg1)) as (g2 & Hg2 & Hatt).
    destruct (on_graph_ok graph (call_unset_initial_packet target_port) w1 g2)
      as (w2 & Hw2 & Hs2 & _ & Hh2); [lia | by rewrite Hs1 |].
    rewrite Hw2 in Hrun. injection Hrun as <-.
    rewrite Hs2. split; [| done].
    exists g1. by rewrite Hh2, Hh1, Hs1, <- app_assoc.
  - destruct (Hunset _ Hconn) as (g2 & Hg2 & Hatt).
    destruct (on_graph_ok graph (call_unset_initial_packet target_port) w g2 Hlt Hg2)
      as (w2 & Hw2 & Hs2 & _ & Hh2).
    rewrite Hw2 in Hrun. injection Hrun as <-.
    rewrite Hs2. split; [| done].
    exists (graph_store w !!! graph). by rewrite Hh2.
Qed.

Lemma remove_iip_detaches_witness :
  let b_in := {| core.owner := "b"; core.dir := core.Input; core.pname := "in" |} in
  let w' := fst (remove_iip "main" {| node := "b"; port := "in" |} started_world) in
  ∃ graph,
    _graphs started_world !! "main" = Some graph ∧
    (∃ between,
       history w' = history started_world ++
         (if core.is_connected (graph_store started_world !!! graph) b_in
          then [{| ev_graph := graph; ev_before := graph_store started_world !!! graph;
                   ev_call := call_disconnect b_in |}]
          else []) ++
         [{| ev_graph := graph; ev_before := between;
             ev_call := call_unset_initial_packet b_in |}]) ∧
    core.is_attached (graph_store w' !!! graph) b_in = false.
Proof.
  cbv zeta.
  apply (remove_iip_detaches id started_world
           (fst (remove_iip "main" {| node := "b"; port := "in" |} started_world))
           "main" {| node := "b"; port := "in" |} started_world_reachable).
  apply (returns_in (remove_iip "main" {| node := "b"; port := "in" |})
           started_world tt).
  vm_compute. reflexivity.
Defined.

(** X10: on a graph id that has a graph, [add_node] neither rebinds the id
    nor creates a graph object; with a component id that is not registered
    it raises KeyError and nothing has changed; with a registered one it
    makes exactly one call, [add_component] of a new instance of the
    registered class named by the node id, on the graph of that id. *)
Theorem add_node_on_known_graph `{GraphExecutor} (w : World)
    (graph_id node_id component_id : string) (graph : loc) :
  _graphs w !! graph_id = Some graph →
  (_components w !! component_id = None →
   add_node graph_id node_id component_id w = (w, Raise (KeyError component_id))) ∧
  (∀ options, _components w !! component_id = Some options →
   let w' := fst (add_node graph_id node_id component_id w) in
   history w' = history w ++
     [{| ev_graph := graph; ev_before := graph_store w !!! graph;
         ev_call := call_add_component (instantiate (opt_class options) node_id) |}] ∧
   _graphs w' = _graphs w ∧
   length (graph_store w') = length (graph_store w)).
Proof.
  intros Hg.
  assert (Hrun : add_node graph_id node_id component_id w =
            match _components w !! component_id with
            | Some options =>
                on_graph graph
                  (call_add_component (instantiate (opt_class options) node_id)) w
            | None => (w, Raise (KeyError component_id))
            end).
  { unfold add_node. unfold mbind at 1. unfold M_bind at 1.
    rewrite create_or_get_graph_run, Hg. msimpl.
    by destruct (_components w !! component_id). }
  rewrite Hrun. split.
  - by intros ->.
  - intros options ->. unfold on_graph.
    destruct (run_graph_call _ _); simpl; auto using length_insert.
Qed.

Lemma add_node_on_known_graph_witness :
  add_node "main" "c" "nowhere/Missing" started_world
    = (started_world, Raise (KeyError "nowhere/Missing")) ∧
  _graphs (fst (add_node "main" "c" "pflow.components/Repeat" started_world))
    = _graphs started_world ∧
  length (graph_store (fst (add_node "main" "c" "pflow.components/Repeat" started_world)))
    = length (graph_store started_world).
Proof.
  assert (Hg : _graphs started_world !! "main" = Some 0) by (vm_compute; reflexivity).
  destruct (add_node_on_known_graph started_world "main" "c" "nowhere/Missing" 0 Hg)
    as (Hmissing & _).
  destruct (add_node_on_known_graph started_world "main" "c" "pflow.components/Repeat"
              0 Hg) as (_ & Hknown).
  assert (Hsome : is_Some (_components started_world !! "pflow.components/Repeat")).
  { apply (bool_decide_unpack _). vm_compute. exact I. }
  destruct Hsome as [options Hoptions].
  split.
  - apply Hmissing. vm_compute. reflexivity.
  - apply (Hknown options Hoptions).
Defined.

(** ** The registry *)

Lemma components_frame `{GraphExecutor} dedent_strip (w : World) (r : request) :
  (∀ c o, r ≠ do_register_component c o) →
  _components (fst (perform dedent_strip r w)) = _components w.
Proof.
  intros Hr.
  assert (Hedit : edits_graph r = true →
                  _components (fst (perform dedent_strip r w)) = _components w).
  { intros He.
    apply (preserves_graph_edit dedent_strip (λ w', _components w' = _components w) r);
      [| | done | done].
    - intros g c w1 Hw1. destruct (on_graph_frame g c w1) as (F & _).
      cbv zeta in F. by rewrite F.
    - by intros id w1 Hw1. }
  destruct r; try (by apply Hedit); simpl.
  - by destruct (Hr component_class overwrite).
  - by destruct (start_frame graph_id w) as (F & _).
  - by destruct (stop_frame graph_id w) as (F & _).
Qed.

Lemma create_component_spec_pure `{GraphExecutor} dedent_strip name c :
  is_Component c = true →
  ∃ spec, (∀ w0 : World,
             _create_component_spec dedent_strip name c w0 = (w0, Ok spec)) ∧
          spec_name spec = name ∧ spec_subgraph spec = is_Graph c ∧
          map in_id (inPorts spec) = map core.port_name (class_inputs c) ∧
          map out_id (outPorts spec) = map core.port_name (class_outputs c).
Proof.
  intros Hc. unfold _create_component_spec. rewrite Hc. simpl.
  eexists. split; [reflexivity |]. simpl. by rewrite !map_map.
Qed.

Lemma register_component_stores `{GraphExecutor} dedent_strip c overwrite (w : World) :
  is_Component c = true →
  _long_class_name c ∉ dom (_components w) ∨ overwrite = true →
  ∃ options,
    opt_class options = c ∧
    consistent_entry dedent_strip (_long_class_name c) options ∧
    register_component dedent_strip c overwrite w
      = (set_components <[_long_class_name c := options]> w, Ok tt).
Proof.
  intros Hc Hfree.
  destruct (create_component_spec_pure dedent_strip (_long_class_name c) c Hc)
    as (spec & Hspec & _).
  exists {| opt_class := c; opt_spec := spec |}. split; [done |]. split; [done |].
  unfold register_component. rewrite Hc. msimpl.
  assert (Hgo : bool_decide (_long_class_name c ∈ dom (_components w)) && negb overwrite
                = false).
  { destruct Hfree as [Hfree | ->]; [| apply andb_false_r].
    by rewrite bool_decide_eq_false_2. }
  rewrite Hgo. unfold mbind, M_bind. by rewrite Hspec.
Qed.

Lemma register_component_raises `{GraphExecutor} dedent_strip c overwrite (w : World) :
  is_Component c = false ∨
  (_long_class_name c ∈ dom (_components w) ∧ overwrite = false) →
  ∃ msg, register_component dedent_strip c overwrite w = (w, Raise (ValueError msg)).
Proof.
  unfold register_component. msimpl. intros [-> | [Hin ->]]; simpl; [eauto |].
  destruct (is_Component c); simpl; [| eauto].
  rewrite bool_decide_eq_true_2 by done. simpl. eauto.
Qed.

Lemma register_component_cases `{GraphExecutor} c overwrite (w : World) :
  (is_Component c = true ∧
   (_long_class_name c ∉ dom (_components w) ∨ overwrite = true)) ∨
  (is_Component c = false ∨
   (_long_class_name c ∈ dom (_components w) ∧ overwrite = false)).
Proof.
  destruct (is_Component c); [| by right; left].
  destruct overwrite; [left; auto |].
  destruct (decide (_long_class_name c ∈ dom (_components w))); [right | left]; auto.
Qed.

Lemma reachable_consistent_registry `{GraphExecutor} dedent_strip (w : World) :
  reachable dedent_strip w → consistent_registry dedent_strip w.
Proof.
  induction 1 as [| w r _ IH]; [apply map_Forall_empty |].
  unfold consistent_registry in *.
  destruct r as [c o | | | | | | | | |];
    try (rewrite components_frame; [done | discriminate]).
  simpl. destruct (register_component_cases c o w) as [[Hc Hfree] | Hbad].
  - destruct (register_component_stores dedent_strip c o w Hc Hfree)
      as (options & _ & Hcons & ->).
    simpl. by apply map_Forall_insert_2.
  - by destruct (register_component_raises dedent_strip c o w Hbad) as [msg ->].
Qed.

Lemma registry_entries_consistent_names `{GraphExecutor} dedent_strip (w : World)
    (name : string) (options : component_options) :
  reachable dedent_strip w → _components w !! name = Some options →
  spec_name (opt_spec options) = name ∧ name = _long_class_name (opt_class options).
Proof.
  intros Hw%reachable_consistent_registry Hl.
  destruct (Hw name options Hl) as (Hc & Hname & Hspec).
  destruct (create_component_spec_pure dedent_strip name (opt_class options) Hc)
    as (spec & Hbuilt & Hn & _).
  specialize (Hspec w). rewrite Hbuilt in Hspec. injection Hspec as <-. done.
Qed.

(** X11: in every reachable state, every entry of the registry sits under
    the long name of its class, the class is a subclass of
    [core.Component], and the spec stored with it names that key, has the
    [subgraph] flag of the class and lists the ports of the class by name
    and in order. *)
Theorem registry_entries_describe_their_class `{GraphExecutor}
    (dedent_strip : string → string) (w : World) (name : string)
    (options : component_options) :
  reachable dedent_strip w →
  _components w !! name = Some options →
  let c := opt_class options in
  let spec := opt_spec options in
  is_Component c = true ∧
  name = _long_class_name c ∧
  spec_name spec = name ∧
  spec_subgraph spec = is_Graph c ∧
  map in_id (inPorts spec) = map core.port_name (class_inputs c) ∧
  map out_id (outPorts spec) = map core.port_name (class_outputs c).
Proof.
  intros Hw%reachable_consistent_registry Hl. cbv zeta.
  destruct (Hw name options Hl) as (Hc & Hname & Hspec).
  destruct (create_component_spec_pure dedent_strip name (opt_class options) Hc)
    as (spec & Hbuilt & Hrest).
  specialize (Hspec w). rewrite Hbuilt in Hspec. injection Hspec as <-.
  by destruct Hrest as (? & ? & ? & ?).
Qed.

Lemma registry_entries_describe_their_class_witness :
  ∃ options,
    _components registry_world !! "pflow.components/Repeat" = Some options ∧
    is_Component (opt_class options) = true ∧
    "pflow.components/Repeat" = _long_class_name (opt_class options) ∧
    spec_name (opt_spec options) = "pflow.components/Repeat" ∧
    spec_subgraph (opt_spec options) = is_Graph (opt_class options) ∧
    map in_id (inPorts (opt_spec options))
      = map core.port_name (class_inputs (opt_class options)) ∧
    map out_id (outPorts (opt_spec options))
      = map core.port_name (class_outputs (opt_class options)).
Proof.
  assert (Hsome : is_Some (_components registry_world !! "pflow.components/Repeat")).
  { apply (bool_decide_unpack _). vm_compute. exact I. }
  destruct Hsome as [options Hoptions].
  exists options. split; [exact Hoptions |].
  apply (registry_entries_describe_their_class id registry_world
           "pflow.components/Repeat" options); [| exact Hoptions].
  apply (reachable_by id (do_register_component Repeat false) init);
    [apply reachable_init | reflexivity].
Defined.

Lemma map_fold_insert_fmap {A B} (f : A → B) (m : gmap string A) :
  map_fold (λ k x acc, <[k := f x]> acc) ∅ m = f <$> m.
Proof.
  apply (map_fold_weak_ind (λ r m, r = f <$> m)).
  - by rewrite fmap_empty.
  - intros k x m' r Hk ->. by rewrite fmap_insert.
Qed.

(** X12: [get_all_component_specs] changes nothing and returns a dictionary
    with exactly the names of the registry, each with the spec stored under
    it; in a reachable state every spec it returns carries its own key as
    name. *)
Theorem get_all_component_specs_lists_registry `{GraphExecutor}
    (dedent_strip : string → string) (w : World) :
  ∃ specs,
    get_all_component_specs w = (w, Ok specs) ∧
    dom specs = dom (_components w) ∧
    (∀ name, specs !! name = opt_spec <$> _components w !! name) ∧
    (reachable dedent_strip w →
     ∀ name spec, specs !! name = Some spec → spec_name spec = name).
Proof.
  exists (opt_spec <$> _components w).
  split; [| split; [| split]].
  - unfold get_all_component_specs. msimpl. by rewrite map_fold_insert_fmap.
  - apply dom_fmap_L.
  - intros name. apply lookup_fmap.
  - intros Hw name spec. rewrite lookup_fmap.
    destruct (_components w !! name) as [options |] eqn:Hl; [| done].
    intros [= <-].
    by destruct (registry_entries_consistent_names dedent_strip w name options Hw Hl).
Qed.

Lemma registry_world_reachable : reachable id registry_world.
Proof.
  apply (reachable_step id _ (do_register_component Repeat false)), reachable_init.
Qed.

Lemma get_all_component_specs_lists_registry_witness :
  ∃ specs,
    get_all_component_specs registry_world = (registry_world, Ok specs) ∧
    dom specs = dom (_components registry_world) ∧
    ∀ name spec, specs !! name = Some spec → spec_name spec = name.
Proof.
  destruct (get_all_component_specs_lists_registry id registry_world)
    as (specs & Hrun & Hdom & _ & Hnames).
  exists specs. split; [exact Hrun |]. split; [exact Hdom |].
  apply Hnames. apply registry_world_reachable.
Defined.




(** ** Long names *)

Lemma split_first_slash_append (s t : string) :
  contains_slash s = false →
  split_first_slash (s +:+ "/" +:+ t) = Some (s, t).
Proof.
  induction s as [| a s IH]; simpl; [done |].
  intros [Ha Hs]%orb_false_iff. rewrite Ha. by rewrite (IH Hs).
Qed.

Lemma split_first_slash_Some (s l r : string) :
  split_first_slash s = Some (l, r) →
  s = l +:+ "/" +:+ r ∧ contains_slash l = false.
Proof.
  revert l. induction s as [| a s IH]; simpl; [done |]. intros l.
  destruct (Ascii.eqb a "/") eqn:Ha.
  - intros [= <- <-]. apply Ascii.eqb_eq in Ha. by subst a.
  - destruct (split_first_slash s) as [[l' r'] |]; [| done].
    intros [= <- <-]. destruct (IH l' eq_refl) as [-> Hl'].
    simpl. by rewrite Ha.
Qed.

Lemma split_first_slash_None (s : string) :
  split_first_slash s = None ↔ contains_slash s = false.
Proof.
  induction s as [| a s IH]; simpl; [done |].
  destruct (Ascii.eqb a "/"); simpl; [done |].
  destruct (split_first_slash s) as [[l r] |]; simpl.
  - split; [done |]. intros Hs. by apply IH in Hs.
  - split; [| done]. intros _. by apply IH.
Qed.

(** X14: the split at the first slash that [handle_component] applies to a
    component name undoes [_long_class_name] when the module name has no
    slash; whatever it returns joins back to the name it was given; and it
    raises ValueError exactly on names without a slash. *)
Theorem split_component_name_round_trip (component_class : pyclass)
    (component_name : string) :
  (contains_slash (__module__ component_class) = false →
   split_component_name (_long_class_name component_class)
     = Ok (__module__ component_class, __name__ component_class)) ∧
  (∀ library_name short_component_name,
     split_component_name component_name = Ok (library_name, short_component_name) →
     component_name = library_name +:+ "/" +:+ short_component_name ∧
     contains_slash library_name = false) ∧
  (contains_slash component_name = false ↔
   split_component_name component_name
     = Raise (ValueError "need more than 1 value to unpack")).
Proof.
  unfold split_component_name, _long_class_name. split; [| split].
  - intros Hm. by rewrite split_first_slash_append.
  - intros l r. destruct (split_first_slash component_name) as [[l' r'] |] eqn:Hs;
      [| done].
    intros [= <- <-]. by apply split_first_slash_Some.
  - rewrite <- split_first_slash_None.
    destruct (split_first_slash component_name); split; done.
Qed.

Lemma split_component_name_round_trip_witness :
  split_component_name (_long_class_name Repeat) = Ok ("pflow.components", "Repeat") ∧
  split_component_name "Repeat" = Raise (ValueError "need more than 1 value to unpack").
Proof.
  destruct (split_component_name_round_trip Repeat "Repeat") as (Hsplit & _ & Hnone).
  split.
  - apply Hsplit. reflexivity.
  - apply Hnone. reflexivity.
Defined.



(** ** Source code of components *)

Lemma find_in_graphs_run `{GraphExecutor} (graphs : list loc) (name : string)
    (w : World) :
  let has l := find (λ c, bool_decide (core.comp_name c = name))
                    (core.components (graph_store w !!! l)) in
  ∃ r, find_in_graphs graphs name w = (w, Ok r) ∧
       (∀ c, r = Some c → ∃ l, l ∈ graphs ∧ has l = Some c) ∧
       (r = None → ∀ l, l ∈ graphs → has l = None).
Proof.
  cbv zeta. induction graphs as [| graph rest IH]; simpl.
  - exists None. split; [done |]. split; [done |]. intros _ l Hl.
    by apply elem_of_nil in Hl.
  - unfold _find_component_by_name. msimpl.
    destruct (find _ (core.components (graph_store w !!! graph))) as [c |] eqn:Hc.
    + exists (Some c). split; [done |]. split; [| done].
      intros c' [= <-]. exists graph. split; [apply elem_of_cons; by left | done].
    + destruct IH as (r & Hrun & Hsome & Hnone). exists r.
      split; [done |]. split.
      * intros c' Hr. destruct (Hsome c' Hr) as (l & Hl & Hhas).
        exists l. split; [apply elem_of_cons; by right | done].
      * intros Hr l [-> | Hl]%elem_of_cons; [done | by apply Hnone].
Qed.

Lemma elem_of_graph_values (m : gmap string loc) (l : loc) :
  l ∈ (map_to_list m).*2 ↔ ∃ graph_id, m !! graph_id = Some l.
Proof.
  rewrite list_elem_of_fmap. split.
  - intros ([graph_id l'] & -> & Hin). exists graph_id.
    by apply elem_of_map_to_list in Hin.
  - intros [graph_id Hl]. exists (graph_id, l). split; [done |].
    by apply elem_of_map_to_list.
Qed.

(** X16: [get_source_code] changes nothing; it returns the source of a
    component (a node) of that name found in a graph that is bound to some
    graph id, and raises ValueError exactly when no graph bound to a graph
    id has a component of that name. *)
Theorem get_source_code_searches_bound_graphs `{GraphExecutor}
    (getsource : core.Component → string) (w : World) (component_name : string) :
  let has l := find (λ c, bool_decide (core.comp_name c = component_name))
                    (core.components (graph_store w !!! l)) in
  fst (get_source_code getsource component_name w) = w ∧
  (∀ code, snd (get_source_code getsource component_name w) = Ok code →
     ∃ graph_id l c, _graphs w !! graph_id = Some l ∧ has l = Some c ∧
                     code = getsource c) ∧
  (snd (get_source_code getsource component_name w)
     = Raise (ValueError ("No component named " +:+ component_name)) ↔
   ∀ graph_id l, _graphs w !! graph_id = Some l → has l = None) ∧
  (∀ e, snd (get_source_code getsource component_name w) = Raise e →
     e = ValueError ("No component named " +:+ component_name)).
Proof.
  cbv zeta. unfold get_source_code. msimpl.
  destruct (find_in_graphs_run (map_to_list (_graphs w)).*2 component_name w)
    as (r & Hrun & Hsome & Hnone).
  cbv zeta in Hsome, Hnone. rewrite Hrun.
  destruct r as [c |]; simpl.
  - destruct (Hsome c eq_refl) as (l & [graph_id Hl]%elem_of_graph_values & Hhas).
    split; [done |]. split; [| split; [| done]].
    + intros code [= <-]. eauto 6.
    + split; [done |]. intros Hall. specialize (Hall graph_id l Hl). congruence.
  - split; [done |]. split; [done |]. split; [| by intros e [= <-]].
    split; [| done]. intros _ graph_id l Hl. apply Hnone; [done |].
    apply elem_of_graph_values. eauto.
Qed.

Lemma get_source_code_searches_bound_graphs_witness :
  snd (get_source_code (λ c, "class " +:+ core.comp_name c) "zzz" started_world)
    = Raise (ValueError "No component named zzz") ∧
  ∃ graph_id l c,
    _graphs started_world !! graph_id = Some l ∧
    find (λ c, bool_decide (core.comp_name c = "a"))
         (core.components (graph_store started_world !!! l)) = Some c ∧
    "class a" = (λ c, "class " +:+ core.comp_name c) c.
Proof.
  destruct (get_source_code_searches_bound_graphs
              (λ c, "class " +:+ core.comp_name c) started_world "zzz")
    as (_ & _ & _ & Hraise).
  destruct (get_source_code_searches_bound_graphs
              (λ c, "class " +:+ core.comp_name c) started_world "a")
    as (_ & Hfound & _ & _).
  split.
  - assert (Hrun : ∃ e, snd (get_source_code (λ c, "class " +:+ core.comp_name c)
                               "zzz" started_world) = Raise e)
      by (eexists; vm_compute; reflexivity).
    destruct Hrun as [e He]. rewrite He. f_equal. by apply Hraise.
  - apply Hfound. vm_compute. reflexivity.
Defined.

(** ** Registration of a module *)

Lemma registrable_Some o cls : registrable o = Some cls → is_Component cls = true.
Proof.
  destruct o as [c b a |]; simpl; [| done].
  destruct (negb b && negb a && negb (is_Graph c) && is_Component c) eqn:Hok; [| done].
  intros [= <-]. by apply andb_true_iff in Hok as [_ ?].
Qed.

Lemma register_component_duplicate `{GraphExecutor} dedent_strip c (w : World) :
  is_Component c = true → _long_class_name c ∈ dom (_components w) →
  register_component dedent_strip c false w
    = (w, Raise (ValueError ("Component " +:+ _long_class_name c +:+
                             " already registered"))).
Proof.
  intros Hc Hin. unfold register_component. rewrite Hc. msimpl.
  by rewrite bool_decide_eq_true_2.
Qed.

Lemma register_attributes_cons `{GraphExecutor} dedent_strip obj_name class_obj rest
    overwrite n (w : World) :
  register_attributes dedent_strip ((obj_name, class_obj) :: rest) overwrite n w =
    match registrable class_obj with
    | Some cls =>
        match register_component dedent_strip cls overwrite w with
        | (w1, Ok _) => register_attributes dedent_strip rest overwrite (S n) w1
        | (w1, Raise e) => (w1, Raise e)
        end
    | None => register_attributes dedent_strip rest overwrite n w
    end.
Proof.
  simpl. unfold mbind, M_bind. destruct (registrable class_obj) as [cls |]; [| done].
  destruct (register_component dedent_strip cls overwrite w) as [w1 [[] | e]]; done.
Qed.

Lemma register_attributes_ok `{GraphExecutor} dedent_strip attrs overwrite n (w : World) :
  overwrite = true ∨
  (NoDup (_long_class_name <$> module_classes attrs) ∧
   ∀ c, c ∈ module_classes attrs → _long_class_name c ∉ dom (_components w)) →
  ∃ w' n', register_attributes dedent_strip attrs overwrite n w = (w', Ok n') ∧
           registered_from (module_classes attrs) w w'.
Proof.
  revert n w. induction attrs as [| [obj_name class_obj] rest IH]; intros n w Hpre.
  - exists w, n. split; [done |]. unfold registered_from. simpl.
    repeat (split; [done |]). split; [by rewrite (right_id_L ∅ (∪)) |].
    split; [done |].
    intros name Hin. by apply elem_of_nil in Hin.
  - rewrite register_attributes_cons. unfold module_classes in *. simpl in *.
    destruct (registrable class_obj) as [cls |] eqn:Hreg; simpl in *.
    + pose proof (registrable_Some _ _ Hreg) as Hc.
      destruct (register_component_stores dedent_strip cls overwrite w Hc)
        as (options & Hclass & _ & Hrun).
      { destruct Hpre as [-> | [_ Hfresh]]; [by right | left].
        apply Hfresh. apply elem_of_cons. by left. }
      rewrite Hrun.
      set (w1 := set_components <[_long_class_name cls := options]> w).
      destruct (IH (S n) w1) as (w' & n' & Hrest & Hg & He & Hgs & Hes & Hdom & Hout & Hin).
      { destruct Hpre as [-> | [Hnd Hfresh]]; [by left | right].
        apply NoDup_cons in Hnd as [Hnotin Hnd]. split; [done |].
        intros c Hcin. subst w1. simpl. rewrite dom_insert_L.
        apply not_elem_of_union. split.
        - apply not_elem_of_singleton. intros Heq. apply Hnotin.
          rewrite <- Heq. by apply list_elem_of_fmap_2.
        - apply Hfresh. apply elem_of_cons. by right. }
      exists w', n'. split; [done |]. unfold registered_from.
      split; [done |]. split; [done |]. split; [done |]. split; [done |].
      split; [| split].
      * rewrite Hdom. subst w1. simpl. rewrite dom_insert_L.
        by rewrite (comm_L (∪) {[_]} (dom _)), <- (assoc_L (∪)).
      * intros name Hname. apply not_elem_of_cons in Hname as [Hne Hname].
        rewrite (Hout name Hname). subst w1. simpl. by rewrite lookup_insert_ne.
      * intros name Hname.
        destruct (decide (name ∈ _long_class_name <$> omap (λ attr, registrable attr.2) rest))
          as [Hrestin | Hnotrest].
        -- destruct (Hin name Hrestin) as (o & Ho & Hoc & Hol).
           exists o. split; [done |]. split; [| done]. apply elem_of_cons. by right.
        -- apply elem_of_cons in Hname as [-> | Hname]; [| done].
           exists options. rewrite (Hout _ Hnotrest). subst w1. simpl.
           rewrite lookup_insert_eq. split; [done |]. rewrite Hclass.
           split; [apply elem_of_cons; by left | done].
    + apply IH. done.
Qed.

Lemma register_attributes_app `{GraphExecutor} dedent_strip before rest overwrite n
    (w w1 : World) n1 :
  register_attributes dedent_strip before overwrite n w = (w1, Ok n1) →
  register_attributes dedent_strip (before ++ rest) overwrite n w
    = register_attributes dedent_strip rest overwrite n1 w1.
Proof.
  revert n w. induction before as [| [obj_name class_obj] before IH]; intros n w.
  - simpl. by intros [= <- <-].
  - rewrite <- app_comm_cons, !register_attributes_cons.
    destruct (registrable class_obj) as [cls |]; [| apply IH].
    destruct (register_component dedent_strip cls overwrite w) as [w2 [[] | e]];
      [apply IH | done].
Qed.

(** X17: [register_module] on a module returns when [overwrite] is set, or
    when the classes it registers have pairwise different long names that
    are all free; it registers exactly the classes of the module that are
    not [core.Component] itself, not abstract, not graphs, and components,
    and changes nothing but the registry. *)
Theorem register_module_registers `{GraphExecutor} (dedent_strip : string → string)
    (__import__ : string → module_argument) (w : World) (name : string)
    (attrs : list (string * pyobject)) (overwrite : bool) :
  overwrite = true ∨
  (NoDup (_long_class_name <$> module_classes attrs) ∧
   ∀ c, c ∈ module_classes attrs → _long_class_name c ∉ dom (_components w)) →
  ∃ w', register_module dedent_strip __import__ (arg_module name attrs) overwrite w
          = (w', Ok tt) ∧
        registered_from (module_classes attrs) w w'.
Proof.
  intros Hpre. unfold register_module. unfold mbind, M_bind.
  destruct (register_attributes_ok dedent_strip attrs overwrite 0 w Hpre)
    as (w' & n' & -> & Hreg).
  by exists w'.
Qed.

Lemma register_module_registers_witness :
  ∃ w', register_module id arg_str mixed_module false init = (w', Ok tt) ∧
        dom (_components w') = {[ "pflow.components/Repeat" ]} ∧
        registered_from [Repeat] init w'.
Proof.
  destruct (register_module_registers id arg_str init "pflow.components"
              [ ("Component", obj_class Component_class true true);
                ("Graph", obj_class Graph_class false false);
                ("Repeat", obj_class Repeat false false);
                ("keepalive", obj_other) ] false) as (w' & Hrun & Hreg).
  { right. split.
    - apply NoDup_singleton.
    - intros c Hc. simpl. rewrite dom_empty_L. apply not_elem_of_empty. }
  exists w'. split; [exact Hrun |]. split; [| exact Hreg].
  destruct Hreg as (_ & _ & _ & _ & Hdom & _). rewrite Hdom. simpl.
  rewrite dom_empty_L. vm_compute. reflexivity.
Defined.

(** X18: with [overwrite=False], [register_module] is not atomic: at the
    first class whose long name is already registered, or was registered
    earlier in the same loop (the same class under two names of the module),
    it raises ValueError; the classes before it stay registered and the ones
    after it are not looked at. *)
Theorem register_module_stops_at_duplicate `{GraphExecutor}
    (dedent_strip : string → string) (__import__ : string → module_argument)
    (w : World) (name : string) (before after : list (string * pyobject))
    (obj_name : string) (class_obj : pyobject) (cls : pyclass) :
  registrable class_obj = Some cls →
  NoDup (_long_class_name <$> module_classes before) →
  (∀ c, c ∈ module_classes before → _long_class_name c ∉ dom (_components w)) →
  _long_class_name cls ∈ dom (_components w) ∨
  _long_class_name cls ∈ _long_class_name <$> module_classes before →
  let module := arg_module name (before ++ (obj_name, class_obj) :: after) in
  snd (register_module dedent_strip __import__ module false w)
    = Raise (ValueError ("Component " +:+ _long_class_name cls +:+
                         " already registered")) ∧
  registered_from (module_classes before) w
    (fst (register_module dedent_strip __import__ module false w)).
Proof.
  intros Hreg Hnd Hfresh Hdup. cbv zeta.
  unfold register_module. unfold mbind, M_bind.
  destruct (register_attributes_ok dedent_strip before false 0 w)
    as (w1 & n1 & Hrun & Hstate); [by right |].
  rewrite (register_attributes_app _ _ _ _ _ _ _ _ Hrun).
  rewrite register_attributes_cons, Hreg.
  rewrite register_component_duplicate; [done | by eapply registrable_Some |].
  destruct Hstate as (_ & _ & _ & _ & Hdom & _). rewrite Hdom.
  apply elem_of_union. destruct Hdup as [Hin | Hin]; [by left | right].
  by apply elem_of_list_to_set.
Qed.

Lemma register_module_stops_at_duplicate_witness :
  snd (register_module id arg_str aliased_module false init)
    = Raise (ValueError "Component pflow.components/Repeat already registered") ∧
  registered_from [Repeat] init
    (fst (register_module id arg_str aliased_module false init)).
Proof.
  apply (register_module_stops_at_duplicate id arg_str init "pflow.components"
           [("Again", obj_class Repeat false false)] [] "Repeat"
           (obj_class Repeat false false) Repeat).
  - reflexivity.
  - apply NoDup_singleton.
  - intros c Hc. simpl. rewrite dom_empty_L. apply not_elem_of_empty.
  - right. apply elem_of_cons. left. reflexivity.
Defined.
